(** * face-filter-backend: a model of [app.py] and the properties of its
      request handlers

    The service is a Flask application with four views ([index], [upload],
    [processed], [process_inline]), one explicit preflight view
    ([handle_options]) and one [after_request] hook ([add_cors_headers]);
    line 19 installs the [flask_cors] extension on it.  The views are
    sequential glue around a file system, a temporary-file allocator and
    three external programs.  They are embedded here as
    functions in a state-and-exception monad over an explicit world: the file
    system, a counter for the random draws, and a trace of the temporary
    files created and the subprocesses spawned.

    Python values are modelled as follows.
    - [str] is a list of Unicode code points ([N]); [bytes] is a list of
      [Byte.byte].
    - [pathlib.Path] is a record of a root and the list of path components
      (POSIX flavour).
    - [werkzeug] multi-dicts ([request.form], [request.files]) and header
      sets are association lists, where order and duplicates matter.
    - the file system is a finite map from path strings to file contents.

    What lies outside the application (the interpreter's Unicode tables, the
    random generators, the external programs) is gathered in the record
    [platform]; every definition that needs it takes it as a parameter.

    Of Flask, what is modelled is the way from a view's result to the
    response: the HTTP exceptions that are responses of their own, the 500
    made of any other exception, and the order in which the [after_request]
    functions and the extension's function see a response.  Of [flask_cors],
    what is modelled is the function the extension installs, for the one
    origin that line 19 configures: when it adds headers and which
    [Access-Control-Allow-Origin] it adds; its other headers are taken from
    the platform.

    Scope.  Exceptions that depend on the modelled data are modelled:
    [os.unlink] and [open] of a missing file, [bytes.decode] of bytes that
    are not UTF-8, [tempfile] running out of names, a missing multi-dict
    key.  Failures of the machine are not: the programs can always be
    spawned and the disk is never full.  Paths are POSIX paths.  [print] only
    writes to the server's console, which nothing observes; of a [print]
    only the evaluation of its arguments is kept, since that can raise.  Of
    the headers Werkzeug derives on its own ([Content-Length], [Date],
    caching headers) none is kept; the URL map that picks the view for a
    request is not modelled, a request comes with the [endpoint] that
    answers it. *)

From Stdlib Require Import ZArith NArith List String Ascii Lia.
From Stdlib Require Import Init.Byte Strings.Byte.
From stdpp Require Import base option list gmap.

Local Open Scope N_scope.

(** ** Python [str] and [bytes] *)

Definition str : Type := list N.
Definition bytes : Type := list byte.

(** [u "lit"] is the Python literal ["lit"] (ASCII source text). *)
Definition u (s : string) : str :=
  (λ a, N_of_ascii a) <$> list_ascii_of_string s.

Definition chr_slash : N := 47.
Definition chr_dot : N := 46.
Definition chr_underscore : N := 95.
Definition chr_hyphen : N := 45.
Definition chr_space : N := 32.

Definition between (lo hi c : N) : bool := (lo <=? c) && (c <=? hi).

Definition ascii_digit (c : N) : bool := between 48 57 c.
Definition ascii_upper (c : N) : bool := between 65 90 c.
Definition ascii_lower (c : N) : bool := between 97 122 c.
Definition ascii_alnum (c : N) : bool :=
  ascii_digit c || ascii_upper c || ascii_lower c.

(** [sep.join(l)] *)
Fixpoint join (sep : str) (l : list str) : str :=
  match l with
  | [] => []
  | [x] => x
  | x :: l' => x ++ sep ++ join sep l'
  end.

(** [s.split(sep)] for a one-character separator: never returns [[]]. *)
Fixpoint split_on (sep : N) (s : str) : list str :=
  match s with
  | [] => [[]]
  | c :: s' =>
      if N.eqb c sep then [] :: split_on sep s'
      else match split_on sep s' with
           | w :: ws => (c :: w) :: ws
           | [] => [[c]]
           end
  end.

(** [s.replace(a, b)] for one-character [a] and [b]. *)
Definition replace_chr (a b : N) (s : str) : str :=
  (λ c, if N.eqb c a then b else c) <$> s.

(** [s.rfind(c)], with [None] for Python's [-1]. *)
Fixpoint rfind (c : N) (s : str) : option nat :=
  match s with
  | [] => None
  | x :: s' =>
      match rfind c s' with
      | Some i => Some (S i)
      | None => if N.eqb x c then Some 0%nat else None
      end
  end.

(** [s.lstrip(chars)], [s.rstrip(chars)], [s.strip(chars)] for a set of
    characters given as a predicate. *)
Fixpoint lstrip (f : N → bool) (s : str) : str :=
  match s with
  | [] => []
  | c :: s' => if f c then lstrip f s' else s
  end.
Definition rstrip (f : N → bool) (s : str) : str := rev (lstrip f (rev s)).
Definition strip (f : N → bool) (s : str) : str := rstrip f (lstrip f s).

(** Whitespace according to [str.isspace], restricted to ASCII: TAB, LF, VT,
    FF, CR, the four separators FS GS RS US, and SPACE. *)
Definition ascii_space (c : N) : bool := between 9 13 c || between 28 32 c.

(** [s.split()] (no argument) on an ASCII string: the maximal runs of
    non-whitespace characters. *)
Fixpoint split_ws (s : str) : list str :=
  match s with
  | [] => []
  | c :: s' =>
      let r := split_ws s' in
      if ascii_space c then r
      else match s' with
           | [] => [[c]]
           | c' :: _ =>
               if ascii_space c' then [c] :: r
               else match r with
                    | w :: ws => (c :: w) :: ws
                    | [] => [[c]]
                    end
           end
  end.

(** ** [bytes.decode()]: strict UTF-8 *)

Definition utf8_cont (b : N) : bool := between 128 191 b.

(** The code-point list of a byte-value list, or [None] where Python raises
    [UnicodeDecodeError].  The ranges of the second byte exclude overlong
    forms, surrogates and code points above U+10FFFF. *)
Fixpoint utf8_decode (bs : list N) : option str :=
  match bs with
  | [] => Some []
  | b0 :: r0 =>
      if b0 <? 128 then cons b0 <$> utf8_decode r0
      else if between 194 223 b0 then
        match r0 with
        | b1 :: r1 =>
            if utf8_cont b1
            then cons ((b0 - 192) * 64 + (b1 - 128)) <$> utf8_decode r1
            else None
        | _ => None
        end
      else if between 224 239 b0 then
        match r0 with
        | b1 :: b2 :: r2 =>
            if between (if b0 =? 224 then 160 else 128)
                       (if b0 =? 237 then 159 else 191) b1 && utf8_cont b2
            then cons ((b0 - 224) * 4096 + (b1 - 128) * 64 + (b2 - 128))
                   <$> utf8_decode r2
            else None
        | _ => None
        end
      else if between 240 244 b0 then
        match r0 with
        | b1 :: b2 :: b3 :: r3 =>
            if between (if b0 =? 240 then 144 else 128)
                       (if b0 =? 244 then 143 else 191) b1
               && utf8_cont b2 && utf8_cont b3
            then cons ((b0 - 240) * 262144 + (b1 - 128) * 4096
                       + (b2 - 128) * 64 + (b3 - 128))
                   <$> utf8_decode r3
            else None
        | _ => None
        end
      else None
  end.

Definition decode (b : bytes) : option str := utf8_decode (Byte.to_N <$> b).

(** ** [pathlib.PurePosixPath] *)

(** [root] is [""], ["/"] or ["//"]; [tail] holds the components after the
    root.  Empty components and ["."] never occur in [tail]; [".."] may. *)
Record Path := mkPath { root : str; tail : list str }.

(** The number of leading occurrences of [c]. *)
Fixpoint count_leading (c : N) (s : str) : nat :=
  match s with
  | x :: s' => if N.eqb x c then S (count_leading c s') else 0%nat
  | [] => 0%nat
  end.

(** [PurePosixPath(s)]: exactly two leading slashes give the root ["//"],
    any other positive number gives ["/"]. *)
Definition parse_path (s : str) : Path :=
  let r := match count_leading chr_slash s with
           | 0%nat => []
           | 2%nat => [chr_slash; chr_slash]
           | _ => [chr_slash]
           end in
  mkPath r (filter (λ x, x ≠ [] ∧ x ≠ [chr_dot]) (split_on chr_slash s)).

(** [p / s]: an absolute right operand replaces the left one. *)
Definition truediv (p : Path) (s : str) : Path :=
  let q := parse_path s in
  match root q with
  | [] => mkPath (root p) (tail p ++ tail q)
  | _ => q
  end.

Infix "//" := truediv (at level 40, left associativity).

(** [str(p)] *)
Definition fspath (p : Path) : str :=
  match root p, tail p with
  | [], [] => [chr_dot]
  | r, t => r ++ join [chr_slash] t
  end.

(** [p.name], [p.parent], [p.stem] *)
Definition name (p : Path) : str := List.last (tail p) [].
Definition parent (p : Path) : Path := mkPath (root p) (removelast (tail p)).
Definition stem (p : Path) : str :=
  let n := name p in
  match rfind chr_dot n with
  | Some i => if (0 <? i)%nat && (S i <? length n)%nat then take i n else n
  | None => n
  end.

(** ** [werkzeug.utils.secure_filename] (POSIX branch)

    [unicodedata.normalize("NFKD", s).encode("ascii", "ignore")] keeps the
    ASCII characters of [s] in order and replaces every other character by
    the ASCII part of its compatibility decomposition, which the caller
    supplies as [nfkd].  Then path separators become spaces, whitespace runs
    become single underscores, everything outside [[A-Za-z0-9_.-]] is
    dropped, and dots and underscores are stripped from both ends. *)

Definition filename_keep (c : N) : bool :=
  ascii_alnum c || (c =? chr_underscore) || (c =? chr_dot) || (c =? chr_hyphen).

Definition dot_or_underscore (c : N) : bool :=
  (c =? chr_dot) || (c =? chr_underscore).

Definition to_ascii (nfkd : N → str) (s : str) : str :=
  List.filter (λ c, c <? 128) (s ≫= λ c, if c <? 128 then [c] else nfkd c).

Definition secure_filename (nfkd : N → str) (filename : str) : str :=
  let spaced := replace_chr chr_slash chr_space (to_ascii nfkd filename) in
  strip dot_or_underscore
    (List.filter filename_keep (join [chr_underscore] (split_ws spaced))).

(** ** [str(uuid.UUID(int=n))] *)

Definition hex_digit (d : N) : N := if d <? 10 then 48 + d else 87 + d.

(** The [k] low hexadecimal digits of [n], most significant first. *)
Fixpoint hex_fixed (k : nat) (n : N) : str :=
  match k with
  | O => []
  | S k' => hex_fixed k' (n / 16) ++ [hex_digit (n mod 16)]
  end.

(** ['%032x' % n] for the 128-bit integer of a UUID, cut 8-4-4-4-12. *)
Definition uuid_str (n : N) : str :=
  let h := hex_fixed 32 (n mod 2 ^ 128) in
  take 8 h ++ [chr_hyphen] ++ take 4 (drop 8 h) ++ [chr_hyphen]
  ++ take 4 (drop 12 h) ++ [chr_hyphen] ++ take 4 (drop 16 h) ++ [chr_hyphen]
  ++ drop 20 h.

(** ** The world outside the handlers *)

(** [subprocess.CompletedProcess] with [capture_output=True]. *)
Record completed := mkCompleted {
  returncode : Z;
  stdout : bytes;
  stderr : bytes
}.

(** The three uses of external programs: the WebM-to-MP4 transcode, the
    overlay processor, and the final browser-compatibility transcode.  The
    label is bookkeeping for the trace; it does not reach the program. *)
Inductive stage := Staging | Overlaying | Finalizing.

Global Instance stage_eq_dec : EqDecision stage.
Proof. solve_decision. Defined.

(** What a request did to its environment, in order. [MkTemp p]: a temporary
    file was created at [p] by [tempfile]. [Spawn st args c]:
    [subprocess.run(args)] ran and completed as [c]. [ReadFile p b]: the
    handler opened [p] and read the bytes [b]. *)
Inductive event :=
  | MkTemp (p : str)
  | Spawn (st : stage) (args : list str) (c : completed)
  | ReadFile (p : str) (b : bytes).

Record world := mkWorld {
  fs : gmap str bytes;      (* path string to file content *)
  draws : nat;              (* random draws made so far *)
  trace : list event
}.

(** A request as the views see it: the method, the request headers, and the
    two multi-dicts [request.form] and [request.files] (field name to value,
    in the order sent, duplicates kept). *)
Record request := mkRequest {
  method : str;
  req_headers : list (str * str);
  form : list (str * str);
  files : list (str * bytes)
}.

Record platform := mkPlatform {
  (** directory of [app.py], absolute and resolved *)
  BASE_DIR : Path;
  (** [c.isalnum()] for a code point above 127 *)
  unicode_alnum : N → bool;
  (** ASCII part of the NFKD decomposition of a code point above 127 *)
  unicode_nfkd : N → str;
  (** the integer of the UUID produced by the [n]-th random draw *)
  uuid4_int : nat → N;
  (** [tempfile.TMP_MAX] and the full candidate name built from the [n]-th
      random draw for a suffix *)
  TMP_MAX : nat;
  tmp_candidate : nat → str → str;
  (** running an argument vector ([ffmpeg], or [python] on
      [overlay_processor.py], neither of which is part of [app.py]) to
      completion on a file system: what it returns and what it leaves *)
  execve : list str → gmap str bytes → completed * gmap str bytes;
  (** [mimetypes.guess_type] of a file name *)
  guess_type : str → str;
  (** the headers, other than [Access-Control-Allow-Origin], that the
      [flask_cors] extension computes for a request (exposed headers,
      credentials, the answers to a preflight, [Vary]) *)
  cors_other_headers : request → list (str * str)
}.

(** ** Exceptions and the handler monad *)

Inductive exn :=
  | CalledProcessError (c : completed)
  | FileNotFoundError (p : str)
  | FileExistsError
  | UnicodeDecodeError
  | BadRequestKeyError (k : str)
  | NotFound
  | MethodNotAllowed (allow : str).

Inductive result (A : Type) :=
  | Ok (a : A)
  | Raise (e : exn).
Arguments Ok {A} a.
Arguments Raise {A} e.

(** A computation runs on a world and returns a value or raises; the effects
    made before an exception stay. *)
Definition M (A : Type) : Type := world → result A * world.

Global Instance M_ret : MRet M := λ A a w, (Ok a, w).
Global Instance M_bind : MBind M := λ A B f m w,
  match m w with
  | (Ok a, w') => f a w'
  | (Raise e, w') => (Raise e, w')
  end.

Definition raise {A} (e : exn) : M A := λ w, (Raise e, w).

(** [try: m / except subprocess.CalledProcessError as e: ...] : the caught
    process is returned on the right, every other exception propagates. *)
Definition try_called {A} (m : M A) : M (A + completed) := λ w,
  match m w with
  | (Ok a, w') => (Ok (inl a), w')
  | (Raise (CalledProcessError c), w') => (Ok (inr c), w')
  | (Raise e, w') => (Raise e, w')
  end.

Definition with_fs (f : gmap str bytes → gmap str bytes) (w : world) : world :=
  mkWorld (f (fs w)) (draws w) (trace w).
Definition log (e : event) (w : world) : world :=
  mkWorld (fs w) (draws w) (trace w ++ [e]).
Definition draw (w : world) : world :=
  mkWorld (fs w) (S (draws w)) (trace w).

Section Primitives.
Context (P : platform).

(** [subprocess.run(args, check=True, capture_output=True)] *)
Definition subprocess_run (st : stage) (args : list str) : M completed :=
  λ w,
    let '(c, after) := execve P args (fs w) in
    let w' := log (Spawn st args c) (with_fs (λ _, after) w) in
    if (returncode c =? 0)%Z then (Ok c, w')
    else (Raise (CalledProcessError c), w').

(** [tempfile._mkstemp_inner]: draw candidate names until one does not
    exist, create it empty; give up after [TMP_MAX] draws. *)
Fixpoint mkstemp_inner (fuel : nat) (suffix : str) (w : world)
  : result str * world :=
  match fuel with
  | O => (Raise FileExistsError, w)
  | S fuel' =>
      let file := tmp_candidate P (draws w) suffix in
      match fs w !! file with
      | Some _ => mkstemp_inner fuel' suffix (draw w)
      | None =>
          (Ok file, log (MkTemp file) (with_fs (insert file []) (draw w)))
      end
  end.

(** [tempfile.mkstemp(suffix=...)] followed by closing the descriptor, and
    [tempfile.NamedTemporaryFile(suffix=..., delete=False)] seen from its
    [name]: both create an empty file under a new name. *)
Definition mkstemp (suffix : str) : M str := mkstemp_inner (TMP_MAX P) suffix.
Definition NamedTemporaryFile (suffix : str) : M str :=
  mkstemp_inner (TMP_MAX P) suffix.

(** [uuid.uuid4()] rendered by [str] *)
Definition uuid4 : M str :=
  λ w, (Ok (uuid_str (uuid4_int P (draws w))), draw w).
End Primitives.

(** [FileStorage.save(dst)]: the upload's bytes become the content of [dst]. *)
Definition save (data : bytes) (dst : str) : M unit :=
  λ w, (Ok (), with_fs (insert dst data) w).

(** [os.unlink(p)] *)
Definition unlink (p : str) : M unit := λ w,
  match fs w !! p with
  | Some _ => (Ok (), with_fs (delete p) w)
  | None => (Raise (FileNotFoundError p), w)
  end.

(** [open(p, "rb").read()] *)
Definition read_file (p : str) : M bytes := λ w,
  match fs w !! p with
  | Some b => (Ok b, log (ReadFile p b) w)
  | None => (Raise (FileNotFoundError p), w)
  end.

(** [os.path.exists(p)] and [Path.exists()] *)
Definition path_exists (p : str) : M bool :=
  λ w, (Ok (bool_decide (is_Some (fs w !! p))), w).

(** [b.decode()] as evaluated inside a [print] or [jsonify] argument. *)
Definition decode_text (b : bytes) : M str := λ w,
  match decode b with
  | Some t => (Ok t, w)
  | None => (Raise UnicodeDecodeError, w)
  end.

(** ** Werkzeug data structures *)

(** [key in d] and [d.get(key, default)] on a multi-dict: the first value
    sent for the key counts. *)
Definition md_contains {V} (key : str) (d : list (str * V)) : bool :=
  bool_decide (key ∈ d.*1).
Fixpoint md_get {V} (key : str) (d : list (str * V)) : option V :=
  match d with
  | [] => None
  | (k, v) :: d' => if bool_decide (k = key) then Some v else md_get key d'
  end.
(** [d[key]]: a missing key raises [BadRequestKeyError]. *)
Definition md_getitem {V} (key : str) (d : list (str * V)) : M V :=
  match md_get key d with
  | Some v => mret v
  | None => raise (BadRequestKeyError key)
  end.

(** Header names compare without case; the names that occur are ASCII. *)
Definition lower (s : str) : str :=
  (λ c, if ascii_upper c then c + 32 else c) <$> s.
Definition ieq (a b : str) : bool := bool_decide (lower a = lower b).

Definition hdr_contains (key : str) (h : list (str * str)) : bool :=
  existsb (λ kv, ieq kv.1 key) h.
Definition hdr_getlist (key : str) (h : list (str * str)) : list str :=
  snd <$> List.filter (λ kv, ieq kv.1 key) h.
(** [h.get(key)]: the first value. *)
Definition hdr_get (key : str) (h : list (str * str)) : option str :=
  head (hdr_getlist key h).
(** [h[key] = value]: the first entry of that name is replaced in place and
    the later ones are removed; a new name is appended. *)
Fixpoint hdr_set (key value : str) (h : list (str * str)) : list (str * str) :=
  match h with
  | [] => [(key, value)]
  | (k, v) :: h' =>
      if ieq k key
      then (key, value) :: List.filter (λ kv, negb (ieq kv.1 key)) h'
      else (k, v) :: hdr_set key value h'
  end.
(** [h.add(key, value)] *)
Definition hdr_add (key value : str) (h : list (str * str)) : list (str * str) :=
  h ++ [(key, value)].

Inductive payload :=
  | Json (o : list (str * str))     (* a JSON object with string values *)
  | Raw (b : bytes)
  | Html (t : str).

Record response := mkResponse {
  status : nat;
  headers : list (str * str);
  body : payload
}.

(** [Response(data, mimetype=...)] with the default status. *)
Definition Response (data : payload) (mimetype : str) : response :=
  mkResponse 200 [(u "Content-Type", mimetype)] data.

(** [jsonify(obj)] and the view return value [(jsonify(obj), code)]. *)
Definition jsonify (o : list (str * str)) : response :=
  Response (Json o) (u "application/json").
Definition with_status (r : response) (code : nat) : response :=
  mkResponse code (headers r) (body r).

Definition set_header (key value : str) (r : response) : response :=
  mkResponse (status r) (hdr_set key value (headers r)) (body r).

(** The value of a key of a JSON object body. *)
Definition json_field (key : str) (r : response) : option str :=
  match body r with
  | Json o => md_get key o
  | _ => None
  end.

(** [posixpath.normpath] *)
Fixpoint norm_comps (absolute : bool) (acc : list str) (comps : list str)
  : list str :=
  match comps with
  | [] => rev acc
  | c :: cs =>
      if bool_decide (c = [] ∨ c = [chr_dot]) then norm_comps absolute acc cs
      else if bool_decide (c = [chr_dot; chr_dot]) then
        match acc with
        | [] => norm_comps absolute (if absolute then [] else [c]) cs
        | top :: acc' =>
            if bool_decide (top = [chr_dot; chr_dot])
            then norm_comps absolute (c :: acc) cs
            else norm_comps absolute acc' cs
        end
      else norm_comps absolute (c :: acc) cs
  end.

Definition normpath (path : str) : str :=
  match path with
  | [] => [chr_dot]
  | _ =>
      let slashes := match count_leading chr_slash path with
                     | 0%nat => []
                     | 2%nat => [chr_slash; chr_slash]
                     | _ => [chr_slash]
                     end in
      let comps :=
        norm_comps (negb (bool_decide (slashes = []))) []
                   (split_on chr_slash path) in
      match slashes ++ join [chr_slash] comps with
      | [] => [chr_dot]
      | r => r
      end
  end.

Definition startswith (pre s : str) : bool :=
  bool_decide (take (length pre) s = pre).

(** [werkzeug.security.safe_join(directory, filename)] on POSIX *)
Definition safe_join (directory filename : str) : option str :=
  let filename := match filename with [] => [] | _ => normpath filename end in
  if startswith [chr_slash] filename
     || bool_decide (filename = [chr_dot; chr_dot])
     || startswith [chr_dot; chr_dot; chr_slash] filename
  then None
  else Some (directory ++ [chr_slash] ++ filename).

(** ** The application *)

Definition ORIGIN : str := u "https://brookswimer.github.io".
Definition ACAO : str := u "Access-Control-Allow-Origin".
Definition ACAM : str := u "Access-Control-Allow-Methods".
Definition ACAH : str := u "Access-Control-Allow-Headers".

Section App.
Context (P : platform).

Definition UPLOAD_DIR : Path := BASE_DIR P // u "uploads".
Definition PROCESSED_DIR : Path := BASE_DIR P // u "processed".
Definition MASK_PATH : Path := BASE_DIR P // u "masks" // u "cat.png".

(** [str.isalnum]: at least one character, all of them alphanumeric. *)
Definition chr_isalnum (c : N) : bool :=
  if c <? 128 then ascii_alnum c else unicode_alnum P c.
Definition isalnum (s : str) : bool :=
  match s with
  | [] => false
  | _ => forallb chr_isalnum s
  end.

(** [@app.route("/")] *)
Definition index : M response :=
  mret (jsonify [(u "status", u "online");
                 (u "message", u "Face Filter API is running")]).

(** [@app.route("/upload", methods=["POST"])] *)
Definition upload (req : request) : M response :=
  if negb (md_contains (u "video") (files req)) then
    mret (with_status (jsonify [(u "error", u "No video field in form")]) 400)
  else
    video_file ← md_getitem (u "video") (files req);
    id ← uuid4 P;
    let in_name := secure_filename (unicode_nfkd P) (id ++ u ".webm") in
    let input_path := UPLOAD_DIR // in_name in
    save video_file (fspath input_path);;
    let out_name := stem input_path ++ u "_mask.mp4" in
    let output_path := PROCESSED_DIR // out_name in
    let cmd := [u "python";
                fspath (BASE_DIR P // u "overlay_processor.py");
                fspath input_path;
                fspath MASK_PATH;
                fspath output_path] in
    r ← try_called (subprocess_run P Overlaying cmd);
    match r with
    | inr e =>
        decode_text (stderr e);;                    (* print("[ERROR] ...") *)
        details ← decode_text (stderr e);
        mret (with_status
                (jsonify [(u "error", u "Processing failed");
                          (u "details", details)]) 500)
    | inl _ =>
        mret (jsonify [(u "processed_url", u "/processed/" ++ out_name)])
    end.

(** [flask.send_from_directory(directory, fname, as_attachment=False)]:
    [NotFound] unless the joined path is safe and names a file.  Of the
    headers Werkzeug computes, the two that depend on the name are kept. *)
Definition send_from_directory (directory : Path) (fname : str)
  : M response :=
  match safe_join (fspath directory) fname with
  | None => raise NotFound
  | Some path =>
      λ w, match fs w !! path with
           | None => (Raise NotFound, w)
           | Some b =>
               let nm := name (parse_path path) in
               (Ok (set_header (u "Content-Disposition")
                      (u "inline; filename=" ++ nm)
                      (Response (Raw b) (guess_type P nm))), w)
           end
  end.

(** [@app.route("/processed/<path:fname>")] *)
Definition processed (fname : str) : M response :=
  send_from_directory PROCESSED_DIR fname.

(** [@app.route("/process-inline", methods=["POST"])] *)
Definition process_inline (req : request) : M response :=
  if negb (md_contains (u "video") (files req)) then
    mret (with_status (jsonify [(u "error", u "No video field in form")]) 400)
  else
    let mask_name := default (u "cat") (md_get (u "mask") (form req)) in
    if negb (isalnum mask_name) then
      mret (with_status (jsonify [(u "error", u "Invalid mask name")]) 400)
    else
      let mask_path := BASE_DIR P // u "masks" // (mask_name ++ u ".png") in
      found ← path_exists (fspath mask_path);
      if negb found then
        mret (with_status (jsonify [(u "error", u "Mask not found")]) 400)
      else
        src_file ← md_getitem (u "video") (files req);
        input_path ← NamedTemporaryFile P (u ".webm");
        save src_file input_path;;
        interm_mp4 ← mkstemp P (u ".mp4");
        r ← try_called (subprocess_run P Staging
               [u "ffmpeg"; u "-y";
                u "-i"; input_path;
                u "-c:v"; u "libx264";
                u "-pix_fmt"; u "yuv420p";
                u "-preset"; u "veryfast";
                u "-movflags"; u "+faststart";
                interm_mp4]);
        match r with
        | inr e =>
            unlink input_path;;
            unlink interm_mp4;;
            decode_text (stderr e);;                (* print("[ERROR] ...") *)
            details ← decode_text (stderr e);
            mret (with_status
                    (jsonify [(u "error", u "Failed to convert WebM");
                              (u "details", details)]) 500)
        | inl _ =>
            output_path ← NamedTemporaryFile P (u ".mp4");
            let cmd := [u "python";
                        fspath (BASE_DIR P // u "overlay_processor.py");
                        interm_mp4;
                        fspath mask_path;
                        output_path] in
            r ← try_called (result ← subprocess_run P Overlaying cmd;
                            decode_text (stdout result)); (* print("[DEBUG] ...") *)
            match r with
            | inr e =>
                unlink input_path;;
                unlink interm_mp4;;
                unlink output_path;;
                decode_text (stderr e);;            (* print("[ERROR] ...") *)
                details ← decode_text (stderr e);
                mret (with_status
                        (jsonify [(u "error", u "Processing failed");
                                  (u "details", details)]) 500)
            | inl _ =>
                tmp_final ← mkstemp P (u ".mp4");
                r ← try_called (subprocess_run P Finalizing
                       [u "ffmpeg";
                        u "-y";
                        u "-i"; output_path;
                        u "-vf"; u "fps=30";
                        u "-c:v"; u "libx264";
                        u "-pix_fmt"; u "yuv420p";
                        u "-preset"; u "veryfast";
                        u "-movflags"; u "+faststart";
                        tmp_final]);
                final_mp4 ← match r with
                            | inl _ => mret tmp_final
                            | inr e =>
                                decode_text (stderr e);; (* print("[WARN] ...") *)
                                mret output_path
                            end;
                video_bytes ← read_file final_mp4;
                unlink input_path;;
                unlink interm_mp4;;
                unlink output_path;;
                still ← path_exists final_mp4;
                (if still && negb (bool_decide (final_mp4 = output_path))
                 then unlink final_mp4 else mret ());;
                let resp := Response (Raw video_bytes) (u "video/mp4") in
                let resp := set_header (u "Content-Disposition")
                              (u "inline; filename=processed.mp4") resp in
                let resp := set_header ACAO ORIGIN resp in
                let resp := set_header ACAM (u "POST, GET, OPTIONS") resp in
                let resp := set_header ACAH (u "Content-Type") resp in
                mret resp
            end
        end.

(** [app.make_default_options_response()]: an empty response whose [Allow]
    header lists the methods of the matched URL. *)
Definition make_default_options_response (allow : str) : response :=
  set_header (u "Allow") allow
    (Response (Raw []) (u "text/html; charset=utf-8")).

(** The explicit [OPTIONS] view of ["/"], ["/process-inline"], ["/upload"]. *)
Definition handle_options (allow : str) : M response :=
  let response := make_default_options_response allow in
  let response := set_header ACAO ORIGIN response in
  let response := set_header ACAM (u "POST, GET, OPTIONS") response in
  let response := set_header ACAH (u "Content-Type") response in
  mret response.

(** [@app.after_request] *)
Definition add_cors_headers (resp : response) : response :=
  if negb (hdr_contains ACAO (headers resp)) then
    let resp := set_header ACAO ORIGIN resp in
    let resp := set_header ACAH (u "Content-Type") resp in
    let resp := set_header ACAM (u "POST, GET, OPTIONS") resp in
    resp
  else resp.

(** [flask_cors.core.get_cors_origins] under the options of line 19: one
    origin, given as a plain string, and the extension's defaults
    ([always_send]).  A request whose [Origin] is the configured origin up
    to letter case gets its own [Origin] back, a request with another
    [Origin] gets nothing, a request without [Origin] gets the configured
    origin.  (Header values are Latin-1 text, of which only the ASCII
    letters change to ASCII under [str.lower].) *)
Definition get_cors_origins (request_origin : option str) : list str :=
  match request_origin with
  | Some (c :: o) => if ieq (c :: o) ORIGIN then [c :: o] else []
  | _ => [ORIGIN]
  end.

(** [flask_cors.core.get_cors_headers], as the pairs [set_cors_headers]
    iterates over: none without an origin to allow; otherwise one value per
    header name, [Access-Control-Allow-Origin] with the first origin
    coming first.  The extension's other headers have other names, fixed
    in its code, which the filter records. *)
Definition get_cors_headers (req : request) : list (str * str) :=
  match get_cors_origins (hdr_get (u "Origin") (req_headers req)) with
  | [] => []
  | origin :: _ =>
      (ACAO, origin)
      :: List.filter (λ kv, negb (ieq kv.1 ACAO)) (cors_other_headers P req)
  end.

(** The function [cors_after_request] that [CORS(app, ...)] makes: a
    response that already has a non-empty [Access-Control-Allow-Origin] is
    left alone, otherwise the computed headers are added.  (The resource
    pattern ["/*"] matches every path.) *)
Definition cors_after_request (req : request) (resp : response) : response :=
  match hdr_get ACAO (headers resp) with
  | Some (_ :: _) => resp
  | _ =>
      mkResponse (status resp)
        (foldl (λ h kv, hdr_add kv.1 kv.2 h) (headers resp)
               (get_cors_headers req))
        (body resp)
  end.

(** What answers a request: one of the views, Flask's automatic [OPTIONS]
    response, or the router's own 404 and 405. *)
Inductive endpoint :=
  | Index
  | Upload
  | Processed (fname : str)
  | ProcessInline
  | HandleOptions (allow : str)
  | AutomaticOptions (allow : str)
  | RouteNotFound
  | WrongMethod (allow : str).

Definition http_error (code : nat) (t : str) : response :=
  with_status (Response (Html t) (u "text/html; charset=utf-8")) code.

Definition dispatch_request (e : endpoint) (req : request) : M response :=
  match e with
  | Index => index
  | Upload => upload req
  | Processed fname => processed fname
  | ProcessInline => process_inline req
  | HandleOptions allow => handle_options allow
  | AutomaticOptions allow => mret (make_default_options_response allow)
  | RouteNotFound => raise NotFound
  | WrongMethod allow => raise (MethodNotAllowed allow)
  end.

(** [Flask.handle_user_exception]: Werkzeug's HTTP exceptions are responses
    of their own and are returned; the application registers no error
    handler, so any other exception is raised again ([None]). *)
Definition handle_user_exception (e : exn) : option response :=
  match e with
  | BadRequestKeyError _ => Some (http_error 400 (u "Bad Request"))
  | NotFound => Some (http_error 404 (u "Not Found"))
  | MethodNotAllowed allow =>
      Some (set_header (u "Allow") allow
              (http_error 405 (u "Method Not Allowed")))
  | _ => None
  end.

(** The response [Flask.handle_exception] makes of such an exception. *)
Definition InternalServerError : response :=
  http_error 500 (u "Internal Server Error").

(** [after_request] functions run in reverse order of registration:
    [add_cors_headers] (registered last) first, then the extension's. *)
Definition process_response (req : request) (resp : response) : response :=
  cors_after_request req (add_cors_headers resp).

(** [Flask.wsgi_app] once the view has returned or raised.  [CORS(app)]
    wraps both exception handlers of the application in its
    [cors_after_request]:
    - what a view returns goes through the [after_request] functions;
    - an HTTP exception is made a response by [handle_user_exception]; the
      extension's function sees that response first, and the
      [after_request] functions run on the result;
    - any other exception reaches [handle_exception], which runs the
      [after_request] functions on the 500 response itself; the extension's
      function sees the result. *)
Definition finalize (req : request) (r : result response) : response :=
  match r with
  | Ok rv => process_response req rv
  | Raise ex =>
      match handle_user_exception ex with
      | Some rv => process_response req (cors_after_request req rv)
      | None =>
          cors_after_request req (process_response req InternalServerError)
      end
  end.

(** A whole request: run the view on a world with an empty trace and make
    the response. *)
Definition serve (e : endpoint) (req : request) (w : world)
  : response * world :=
  let '(r, w') := dispatch_request e req (mkWorld (fs w) (draws w) []) in
  (finalize req r, w').
End App.

(** ** A concrete platform

    Used to run the handlers on examples. The external programs are scripted:
    a program of a stage listed in [failing] exits with status 1, writes
    nothing and prints [diag] on its standard error; any other copies the
    upload's bytes to its output path (its last argument). *)

Definition stage_of_args (args : list str) : stage :=
  if bool_decide (head args = Some (u "python")) then Overlaying
  else if bool_decide (u "-vf" ∈ args) then Finalizing
  else Staging.

Definition input_of_args (args : list str) : str :=
  match stage_of_args args with
  | Overlaying => default [] (args !! 2%nat)
  | _ => default [] (args !! 3%nat)
  end.

Definition scripted (failing : list stage) (diag : bytes)
    (args : list str) (files : gmap str bytes) : completed * gmap str bytes :=
  if bool_decide (stage_of_args args ∈ failing)
  then (mkCompleted 1 [] diag, files)
  else (mkCompleted 0 [] [],
        <[List.last args [] := default [] (files !! input_of_args args)]> files).

Definition demo (failing : list stage) (diag : bytes) : platform := {|
  BASE_DIR := parse_path (u "/srv/app");
  unicode_alnum := λ c, bool_decide (c = 233);
  unicode_nfkd := λ _, [];
  uuid4_int := λ n, 0x0123456789abcdef0123456789abcdef + N.of_nat n;
  TMP_MAX := 100;
  tmp_candidate := λ n suffix, u "/tmp/tmp" ++ hex_fixed 8 (N.of_nat n) ++ suffix;
  execve := scripted failing diag;
  guess_type := λ _, u "video/mp4";
  cors_other_headers := λ _, []
|}.

Definition demo_fs : gmap str bytes :=
  {[ u "/srv/app/masks/cat.png" := [x89; x50]; u "/srv/app/masks/dog.png" := [x89; x51] ]}.
Definition demo_world : world := mkWorld demo_fs 0 [].
Definition demo_request (mask : option str) : request :=
  mkRequest (u "POST") []
    (match mask with Some m => [(u "mask", m)] | None => [] end)
    [(u "video", [x1a; x45; xdf; xa3])].

(** ** The vocabulary of the properties *)

(** [wp m w Q]: running [m] on [w] ends in a result and a world that satisfy
    [Q]. *)
Definition wp {A} (m : M A) (w : world) (Q : result A → world → Prop) : Prop :=
  Q (m w).1 (m w).2.

(** The response Flask makes of what a view returned or raised, before any
    cross-origin header is added to it. *)
Definition response_of (r : result response) : response :=
  match r with
  | Ok resp => resp
  | Raise ex => default InternalServerError (handle_user_exception ex)
  end.

(** The external programs never remove a file. *)
Definition keeps_files (P : platform) : Prop :=
  ∀ args files p,
    is_Some (files !! p) → is_Some ((execve P args files).2 !! p).

(** The stages spawned by a request, in order. *)
Definition spawned (tr : list event) : list stage :=
  omap (λ e, match e with
             | Spawn st _ _ => Some st
             | _ => None
             end) tr.


(** The views other than /upload and /process-inline. *)
Definition quiet (e : endpoint) : bool :=
  match e with
  | Upload | ProcessInline => false
  | _ => true
  end.

(** The argument vector of the overlay program on /upload, for the UUID
    string [id]. *)
Definition upload_cmd (P : platform) (id : str) : list str :=
  [u "python";
   fspath (BASE_DIR P // u "overlay_processor.py");
   fspath (UPLOAD_DIR P // (id ++ u ".webm"));
   fspath (MASK_PATH P);
   fspath (PROCESSED_DIR P // (id ++ u "_mask.mp4"))].

(** Characters of a rendered UUID: lower-case hexadecimal digits and the
    hyphen. *)
Definition uuid_chr (c : N) : bool :=
  ascii_digit c || between 97 102 c || (c =? chr_hyphen).

(** A response as a view leaves it: no [Access-Control-Allow-Origin] yet, or
    the one value [ORIGIN]. *)
Definition acao_ok (r : response) : Prop :=
  hdr_getlist ACAO (headers r) = [] ∨ hdr_getlist ACAO (headers r) = [ORIGIN].

(** The values a response to [req] may carry as
    [Access-Control-Allow-Origin]: the fixed origin, or the request's own
    [Origin] when that is the fixed origin up to letter case. *)
Definition allowed_origin (req : request) (v : str) : Prop :=
  v = ORIGIN
  ∨ (hdr_get (u "Origin") (req_headers req) = Some v ∧ ieq v ORIGIN = true).

(** C2 as the specification words it: whichever program exits non-zero,
    the response is 500 and no temporary file of the request is left. *)
Definition every_tool_failure_is_500 (P : platform) (e : endpoint)
    (req : request) (w : world) : Prop :=
  ∀ st args c,
    Spawn st args c ∈ trace (serve P e req w).2 →
    returncode c ≠ 0%Z →
    status (serve P e req w).1 = 500%nat
    ∧ ∀ p, MkTemp p ∈ trace (serve P e req w).2 →
           fs (serve P e req w).2 !! p = None.


(** The external programs change no file but their output path, which is
    their last argument. *)
Definition writes_only_output (P : platform) : Prop :=
  ∀ args files p,
    p ≠ List.last args [] → (execve P args files).2 !! p = files !! p.

(** The temporary files a request created, in order. *)
Definition temp_files (tr : list event) : list str :=
  omap (λ e, match e with
             | MkTemp p => Some p
             | _ => None
             end) tr.

(** The [error] text of the JSON body that reports a failed stage. *)
Definition failure_summary (st : stage) : str :=
  match st with
  | Staging => u "Failed to convert WebM"
  | _ => u "Processing failed"
  end.




(** A path component that names an entry of its directory. *)
Definition plain_component (c : str) : Prop :=
  c ≠ [] ∧ c ≠ [chr_dot] ∧ c ≠ [chr_dot; chr_dot] ∧ chr_slash ∉ c.

(** * Properties *)

(** ** Strings and paths *)

Lemma split_on_absent sep (s : str) :
  sep ∉ s → split_on sep s = [s].
Proof.
  induction s as [|c s IH]; intros Hs; [done|].
  apply not_elem_of_cons in Hs as [Hc Hs]. simpl.
  destruct (N.eqb_spec c sep) as [->|_]; [done|].
  by rewrite IH.
Qed.

Lemma count_leading_other c x (s : str) :
  x ≠ c → count_leading c (x :: s) = 0%nat.
Proof. intros Hx. simpl. by destruct (N.eqb_spec x c). Qed.

(** A non-empty name without a slash that is not ["."] parses to itself. *)
Lemma parse_path_plain (s : str) :
  chr_slash ∉ s → s ≠ [] → s ≠ [chr_dot] →
  parse_path s = mkPath [] [s].
Proof.
  intros Hslash Hne Hdot. unfold parse_path.
  rewrite split_on_absent by done.
  destruct s as [|x s]; [done|].
  rewrite count_leading_other by (intros ->; apply Hslash; left).
  rewrite filter_cons_True by done. done.
Qed.

Lemma truediv_plain (p : Path) (s : str) :
  chr_slash ∉ s → s ≠ [] → s ≠ [chr_dot] →
  p // s = mkPath (root p) (tail p ++ [s]).
Proof. intros. unfold truediv. by rewrite parse_path_plain. Qed.

Lemma name_snoc r t (x : str) : name (mkPath r (t ++ [x])) = x.
Proof. unfold name. simpl. apply last_last. Qed.

Lemma parent_snoc r t (x : str) : parent (mkPath r (t ++ [x])) = mkPath r t.
Proof. unfold parent. simpl. by rewrite removelast_last. Qed.

Lemma join_snoc sep (l : list str) (x : str) :
  l ≠ [] → join sep (l ++ [x]) = join sep l ++ sep ++ x.
Proof.
  induction l as [|a l IH]; [done|]. intros _.
  destruct l as [|b l]; [done|].
  change (join sep ((a :: b :: l) ++ [x]))
    with (a ++ sep ++ join sep ((b :: l) ++ [x])).
  rewrite IH by done. simpl. by rewrite <- !app_assoc.
Qed.

Lemma fspath_snoc r t (x : str) :
  t ≠ [] → fspath (mkPath r (t ++ [x])) = fspath (mkPath r t) ++ [chr_slash] ++ x.
Proof.
  intros Ht.
  assert (∀ l : list str, l ≠ [] → fspath (mkPath r l) = r ++ join [chr_slash] l)
    as E by (intros [|? ?] ?; [done|]; unfold fspath; simpl; by destruct r).
  rewrite !E by (by destruct t). rewrite join_snoc by done.
  by rewrite <- app_assoc.
Qed.

Section Masks.
Context (P : platform).

Lemma chr_isalnum_plain c :
  chr_isalnum P c = true → c ≠ chr_slash ∧ c ≠ chr_dot.
Proof.
  unfold chr_isalnum. intros H. split; intros ->; vm_compute in H; done.
Qed.

Lemma isalnum_plain (s : str) :
  isalnum P s = true → s ≠ [] ∧ (chr_slash ∉ s) ∧ (chr_dot ∉ s).
Proof.
  unfold isalnum. destruct s as [|c s]; [done|]. intros H.
  split; [done|]. rewrite forallb_forall in H.
  split; intros Hin; apply list_elem_of_In, H in Hin;
    by apply chr_isalnum_plain in Hin as [? ?].
Qed.

Lemma mask_file_plain (mask : str) :
  isalnum P mask = true →
  (chr_slash ∉ mask ++ u ".png") ∧ mask ++ u ".png" ≠ []
  ∧ mask ++ u ".png" ≠ [chr_dot].
Proof.
  intros (Hne & Hslash & _)%isalnum_plain. split_and!.
  - rewrite elem_of_app. intros [?|Hin]; [done|].
    revert Hin. apply (bool_decide_unpack _). by vm_compute.
  - by destruct mask.
  - destruct mask as [|? [|? ?]]; done.
Qed.

End Masks.

(** The join of line 75 on a name that passes the [isalnum] check: the
    parent of the resolved path is the mask directory, its last component
    is the name followed by [".png"], that component contains no slash and
    is not [".."], and the path string is the directory's string, a slash,
    and the component. *)
Lemma alnum_mask_path (P : platform) (mask_name : str) :
  isalnum P mask_name = true →
  let mask_dir := BASE_DIR P // u "masks" in
  let mask_path := BASE_DIR P // u "masks" // (mask_name ++ u ".png") in
  parent mask_path = mask_dir
  ∧ name mask_path = mask_name ++ u ".png"
  ∧ (chr_slash ∉ name mask_path)
  ∧ name mask_path ≠ u ".."
  ∧ fspath mask_path = fspath mask_dir ++ u "/" ++ mask_name ++ u ".png".
Proof.
  intros Hal. pose proof (mask_file_plain P mask_name Hal) as (Hs & Hne & Hd).
  intros mask_dir mask_path. subst mask_path.
  assert (mask_dir = mkPath (root (BASE_DIR P)) (tail (BASE_DIR P) ++ [u "masks"]))
    as Hdir by done.
  rewrite truediv_plain by done. fold mask_dir. rewrite Hdir. simpl.
  rewrite name_snoc, parent_snoc. split_and!; try done.
  - intros Heq%(f_equal length). rewrite length_app in Heq.
    simpl in Heq. lia.
  - rewrite fspath_snoc; [done|]. by destruct (tail (BASE_DIR P)).
Qed.

(** Without the check the same join leaves the mask directory. *)
Example unchecked_mask_escapes :
  tail (parse_path (u "/srv/app") // u "masks" // (u "../evil" ++ u ".png"))
  = [u "srv"; u "app"; u "masks"; u ".."; u "evil.png"].
Proof. reflexivity. Qed.

(** ** Header sets *)

Lemma ieq_true a b : ieq a b = true ↔ lower a = lower b.
Proof. unfold ieq. apply bool_decide_eq_true. Qed.

Lemma ieq_false a b : ieq a b = false ↔ lower a ≠ lower b.
Proof. unfold ieq. apply bool_decide_eq_false. Qed.

Ltac ieq_cases :=
  repeat match goal with
    | |- context [ieq ?a ?b] =>
        let E := fresh "E" in
        destruct (ieq a b) eqn:E;
        [apply ieq_true in E | apply ieq_false in E]
    end;
  try congruence.

Lemma hdr_getlist_cons key k v h :
  hdr_getlist key ((k, v) :: h)
  = (if ieq k key then [v] else []) ++ hdr_getlist key h.
Proof. unfold hdr_getlist. simpl. by destruct (ieq k key). Qed.

Lemma hdr_getlist_purged key key' h :
  hdr_getlist key (List.filter (λ kv, negb (ieq kv.1 key')) h)
  = if ieq key' key then [] else hdr_getlist key h.
Proof.
  induction h as [|[k v] h IH].
  - by destruct (ieq key' key).
  - simpl. rewrite hdr_getlist_cons.
    destruct (ieq k key') eqn:E1; simpl;
      rewrite ?hdr_getlist_cons, IH; revert E1;
      rewrite ?ieq_true, ?ieq_false; intros E1; by ieq_cases.
Qed.

(** Reading a header after [h[key'] = v]. *)
Lemma hdr_getlist_set key key' v h :
  hdr_getlist key (hdr_set key' v h)
  = if ieq key' key then [v] else hdr_getlist key h.
Proof.
  induction h as [|[k v0] h IH].
  - simpl. rewrite hdr_getlist_cons. by destruct (ieq key' key).
  - simpl. destruct (ieq k key') eqn:E1;
      rewrite !hdr_getlist_cons, ?hdr_getlist_purged, ?IH; revert E1;
      rewrite ?ieq_true, ?ieq_false; intros E1; ieq_cases;
      by rewrite ?app_nil_r.
Qed.

Lemma hdr_contains_getlist key h :
  hdr_contains key h = false ↔ hdr_getlist key h = [].
Proof.
  induction h as [|[k v] h IH]; [done|].
  rewrite hdr_getlist_cons. simpl. destruct (ieq k key); simpl; [done|].
  exact IH.
Qed.

(** ** The stored name of an upload *)

Ltac chr_facts :=
  unfold uuid_chr, filename_keep, dot_or_underscore, ascii_space, ascii_alnum,
    ascii_digit, ascii_upper, ascii_lower, between, hex_digit,
    chr_slash, chr_dot, chr_underscore, chr_hyphen, chr_space in *;
  repeat match goal with
    | H : _ || _ = true |- _ => apply orb_true_iff in H as [H|H]
    | H : _ && _ = true |- _ => apply andb_true_iff in H as [? H]
    | H : (_ <=? _) = true |- _ => apply N.leb_le in H
    | H : (_ =? _) = true |- _ => apply N.eqb_eq in H
    end;
  rewrite ?orb_false_iff, ?orb_true_iff, ?andb_true_iff, ?andb_false_iff,
    ?N.leb_le, ?N.leb_gt, ?N.eqb_eq, ?N.eqb_neq, ?N.ltb_lt;
  try lia.

Lemma uuid_chr_keep c : uuid_chr c = true → filename_keep c = true.
Proof. intros H. chr_facts. Qed.

Lemma keep_ascii c : filename_keep c = true → (c <? 128) = true.
Proof. intros H. chr_facts. Qed.

Lemma keep_not_slash c : filename_keep c = true → c ≠ chr_slash.
Proof. intros H. chr_facts. Qed.

Lemma keep_not_space c : filename_keep c = true → ascii_space c = false.
Proof. intros H. chr_facts. Qed.

Lemma uuid_chr_edge c : uuid_chr c = true → dot_or_underscore c = false.
Proof. intros H. chr_facts. Qed.

Lemma uuid_chr_not_dot c : uuid_chr c = true → c ≠ chr_dot.
Proof. intros H. chr_facts. Qed.

Lemma hex_digit_uuid_chr d : d < 16 → uuid_chr (hex_digit d) = true.
Proof.
  intros H. unfold uuid_chr, ascii_digit, between, hex_digit, chr_hyphen.
  destruct (N.ltb_spec d 10);
    rewrite ?orb_true_iff, ?andb_true_iff, ?N.leb_le; lia.
Qed.

Lemma hex_fixed_length k n : length (hex_fixed k n) = k.
Proof.
  revert n. induction k as [|k IH]; intros n; simpl; [done|].
  rewrite length_app, IH. simpl. lia.
Qed.

Lemma hex_fixed_chars k n : Forall (λ c, uuid_chr c = true) (hex_fixed k n).
Proof.
  revert n. induction k as [|k IH]; intros n; simpl; [done|].
  apply Forall_app. split; [apply IH|].
  repeat constructor. apply hex_digit_uuid_chr. by apply N.mod_lt.
Qed.

Lemma uuid_str_chars n : Forall (λ c, uuid_chr c = true) (uuid_str n).
Proof.
  unfold uuid_str.
  pose proof (hex_fixed_chars 32 (n mod 2 ^ 128)) as H.
  repeat (apply Forall_app; split);
    first [ by apply Forall_take | by apply Forall_drop
          | by apply Forall_take, Forall_drop
          | by repeat constructor ].
Qed.

Lemma uuid_str_length n : length (uuid_str n) = 36%nat.
Proof.
  unfold uuid_str.
  rewrite !length_app, !length_take, !length_drop, hex_fixed_length. done.
Qed.

Section SecureFilename.
Context (nfkd : N → str).

Lemma to_ascii_fixed (s : str) :
  Forall (λ c, (c <? 128) = true) s → to_ascii nfkd s = s.
Proof.
  unfold to_ascii. induction 1 as [|c s Hc _ IH]; [done|].
  simpl. rewrite Hc. simpl. rewrite Hc. f_equal. exact IH.
Qed.

Lemma replace_chr_fixed a b (s : str) : a ∉ s → replace_chr a b s = s.
Proof.
  unfold replace_chr. induction s as [|c s IH]; [done|].
  intros [Hc Hs]%not_elem_of_cons. simpl.
  destruct (N.eqb_spec c a); [done|]. f_equal. by apply IH.
Qed.

Lemma split_ws_word (s : str) :
  s ≠ [] → Forall (λ c, ascii_space c = false) s → split_ws s = [s].
Proof.
  intros Hne H. induction H as [|c s Hc Hs IH]; [done|].
  simpl. rewrite Hc. destruct s as [|c' s]; [done|].
  rewrite IH by done. by rewrite (Forall_inv Hs).
Qed.

Lemma filter_fixed (f : N → bool) (s : str) :
  Forall (λ c, f c = true) s → List.filter f s = s.
Proof. induction 1 as [|c s Hc _ IH]; simpl; [done|]. by rewrite Hc, IH. Qed.

Lemma lstrip_fixed f c (s : str) : f c = false → lstrip f (c :: s) = c :: s.
Proof. intros H. simpl. by rewrite H. Qed.

(** A name made of kept characters that neither starts nor ends with a dot
    or an underscore is its own secure name. *)
Lemma secure_filename_fixed c (s : str) e :
  Forall (λ x, filename_keep x = true) (c :: s ++ [e]) →
  dot_or_underscore c = false → dot_or_underscore e = false →
  secure_filename nfkd (c :: s ++ [e]) = c :: s ++ [e].
Proof.
  intros Hk Hc He. unfold secure_filename.
  rewrite to_ascii_fixed
    by (eapply Forall_impl; [exact Hk|]; apply keep_ascii).
  rewrite replace_chr_fixed.
  2:{ intros Hin. rewrite Forall_forall in Hk.
      by apply (keep_not_slash _ (Hk _ Hin)). }
  rewrite split_ws_word;
    [|done|eapply Forall_impl; [exact Hk|]; apply keep_not_space].
  cbn [join]. rewrite filter_fixed by done.
  unfold strip, rstrip. rewrite lstrip_fixed by done.
  change (c :: s ++ [e]) with ((c :: s) ++ [e]).
  rewrite rev_unit, lstrip_fixed by done.
  by rewrite <- rev_unit, rev_involutive.
Qed.

Lemma secure_filename_uuid n :
  secure_filename nfkd (uuid_str n ++ u ".webm") = uuid_str n ++ u ".webm".
Proof.
  pose proof (uuid_str_chars n) as Hch. pose proof (uuid_str_length n) as Hl.
  destruct (uuid_str n) as [|c s]; [done|].
  replace ((c :: s) ++ u ".webm") with (c :: (s ++ u ".web") ++ [109])
    by (simpl; by rewrite <- app_assoc).
  apply Forall_cons in Hch as [Hc Hs].
  apply secure_filename_fixed; [|by apply uuid_chr_edge|done].
  constructor; [by apply uuid_chr_keep|].
  rewrite <- app_assoc. apply Forall_app. split.
  - eapply Forall_impl; [exact Hs|]. apply uuid_chr_keep.
  - by repeat constructor.
Qed.

End SecureFilename.

Lemma rfind_suffix (s : str) :
  chr_dot ∉ s → rfind chr_dot (s ++ u ".webm") = Some (length s).
Proof.
  induction s as [|c s IH]; [done|].
  intros [_ Hs]%not_elem_of_cons. simpl. by rewrite IH.
Qed.

Lemma uuid_plain_name n (ext : str) :
  chr_slash ∉ ext →
  (chr_slash ∉ uuid_str n ++ ext) ∧ uuid_str n ++ ext ≠ []
  ∧ uuid_str n ++ ext ≠ [chr_dot].
Proof.
  intros Hext.
  pose proof (uuid_str_chars n) as Hch. pose proof (uuid_str_length n) as Hl.
  split_and!.
  - rewrite elem_of_app. intros [Hin|Hin]; [|done].
    rewrite Forall_forall in Hch. apply Hch in Hin. by vm_compute in Hin.
  - intros H%(f_equal length). rewrite length_app in H. simpl in H. lia.
  - intros H%(f_equal length). rewrite length_app in H. simpl in H. lia.
Qed.

(** The stem of [<uuid>.webm] is the UUID. *)
Lemma stem_uuid_webm (dir : Path) n :
  stem (dir // (uuid_str n ++ u ".webm")) = uuid_str n.
Proof.
  pose proof (uuid_str_chars n) as Hch. pose proof (uuid_str_length n) as Hl.
  destruct (uuid_plain_name n (u ".webm")) as (? & ? & ?).
  { apply (bool_decide_unpack _). by vm_compute. }
  rewrite truediv_plain by done. unfold stem. rewrite name_snoc.
  rewrite rfind_suffix.
  2:{ intros Hin. rewrite Forall_forall in Hch.
      by apply (uuid_chr_not_dot _ (Hch _ Hin)). }
  rewrite length_app, Hl. simpl length.
  change ((0 <? 36)%nat && (37 <? 36 + 5)%nat) with true. cbv iota.
  rewrite <- Hl. by rewrite take_app_length.
Qed.

(** ** Reasoning about handler runs

    One rule of [wp] per primitive; a handler is then walked statement by
    statement. *)

Lemma wp_ret {A} (a : A) w Q : Q (Ok a) w → wp (mret a) w Q.
Proof. done. Qed.

Lemma wp_raise {A} e w (Q : result A → world → Prop) :
  Q (Raise e) w → wp (raise e) w Q.
Proof. done. Qed.

Lemma wp_mono {A} (m : M A) w (Q Q' : result A → world → Prop) :
  wp m w Q → (∀ r w', Q r w' → Q' r w') → wp m w Q'.
Proof. unfold wp. eauto. Qed.

Lemma wp_bind {A B} (m : M A) (f : A → M B) w Q :
  wp m w (λ r w', match r with
                  | Ok a => wp (f a) w' Q
                  | Raise e => Q (Raise e) w'
                  end) →
  wp (m ≫= f) w Q.
Proof.
  unfold wp, mbind, M_bind. by destruct (m w) as [[a|e] w'].
Qed.

Lemma wp_try_called {A} (m : M A) w Q :
  wp m w (λ r w', match r with
                  | Ok a => Q (Ok (inl a)) w'
                  | Raise (CalledProcessError c) => Q (Ok (inr c)) w'
                  | Raise e => Q (Raise e) w'
                  end) →
  wp (try_called m) w Q.
Proof.
  unfold wp, try_called. by destruct (m w) as [[a|[]] w'].
Qed.

Lemma wp_save data dst w Q :
  Q (Ok ()) (mkWorld (<[dst:=data]> (fs w)) (draws w) (trace w)) →
  wp (save data dst) w Q.
Proof. done. Qed.

Lemma wp_unlink p w Q :
  (∀ b, fs w !! p = Some b →
        Q (Ok ()) (mkWorld (delete p (fs w)) (draws w) (trace w))) →
  (fs w !! p = None → Q (Raise (FileNotFoundError p)) w) →
  wp (unlink p) w Q.
Proof.
  intros H1 H2. unfold wp, unlink.
  destruct (fs w !! p) as [b|] eqn:E; [by apply (H1 b) | by apply H2].
Qed.

Lemma wp_unlink_present p w Q :
  is_Some (fs w !! p) →
  Q (Ok ()) (mkWorld (delete p (fs w)) (draws w) (trace w)) →
  wp (unlink p) w Q.
Proof. intros [b Hb] HQ. apply wp_unlink; [done|congruence]. Qed.

Lemma wp_read_file p w Q :
  (∀ b, fs w !! p = Some b →
        Q (Ok b) (mkWorld (fs w) (draws w) (trace w ++ [ReadFile p b]))) →
  (fs w !! p = None → Q (Raise (FileNotFoundError p)) w) →
  wp (read_file p) w Q.
Proof.
  intros H1 H2. unfold wp, read_file.
  destruct (fs w !! p) as [b|] eqn:E; [by apply H1 | by apply H2].
Qed.

Lemma wp_path_exists p w Q :
  Q (Ok (bool_decide (is_Some (fs w !! p)))) w → wp (path_exists p) w Q.
Proof. done. Qed.

Lemma wp_decode_text b w Q :
  (∀ t, decode b = Some t → Q (Ok t) w) →
  (decode b = None → Q (Raise UnicodeDecodeError) w) →
  wp (decode_text b) w Q.
Proof.
  intros H1 H2. unfold wp, decode_text.
  destruct (decode b) as [t|] eqn:E; [by apply H1 | by apply H2].
Qed.

Lemma wp_md_getitem {V} key (d : list (str * V)) w Q :
  (∀ v, md_get key d = Some v → Q (Ok v) w) →
  (md_get key d = None → Q (Raise (BadRequestKeyError key)) w) →
  wp (md_getitem key d) w Q.
Proof.
  intros H1 H2. unfold wp, md_getitem.
  destruct (md_get key d) as [v|] eqn:E; [by apply H1 | by apply H2].
Qed.

Section Rules.
Context (P : platform).

(** A temporary file gets a name that did not exist, and is created empty;
    when no draw is free nothing changes but the number of draws. *)
Lemma mkstemp_inner_spec fuel suffix w :
  match mkstemp_inner P fuel suffix w with
  | (Ok p, w') =>
      fs w !! p = None ∧ fs w' = <[p:=[]]> (fs w)
      ∧ trace w' = trace w ++ [MkTemp p]
  | (Raise e, w') => e = FileExistsError ∧ fs w' = fs w ∧ trace w' = trace w
  end.
Proof.
  revert w. induction fuel as [|fuel IH]; intros w; simpl; [done|].
  destruct (fs w !! tmp_candidate P (draws w) suffix) eqn:E; [|done].
  apply (IH (draw w)).
Qed.

Lemma wp_mkstemp_inner fuel suffix w Q :
  (∀ p n, fs w !! p = None →
          Q (Ok p) (mkWorld (<[p:=[]]> (fs w)) n (trace w ++ [MkTemp p]))) →
  (∀ n, Q (Raise FileExistsError) (mkWorld (fs w) n (trace w))) →
  wp (mkstemp_inner P fuel suffix) w Q.
Proof.
  intros Hok Herr. unfold wp.
  pose proof (mkstemp_inner_spec fuel suffix w) as H.
  destruct (mkstemp_inner P fuel suffix w) as [[p|e] [f n t]]; simpl in *.
  - destruct H as (Hp & -> & ->). by apply Hok.
  - destruct H as (-> & -> & ->). apply Herr.
Qed.

Lemma wp_mkstemp suffix w Q :
  (∀ p n, fs w !! p = None →
          Q (Ok p) (mkWorld (<[p:=[]]> (fs w)) n (trace w ++ [MkTemp p]))) →
  (∀ n, Q (Raise FileExistsError) (mkWorld (fs w) n (trace w))) →
  wp (mkstemp P suffix) w Q.
Proof. apply wp_mkstemp_inner. Qed.

Lemma wp_NamedTemporaryFile suffix w Q :
  (∀ p n, fs w !! p = None →
          Q (Ok p) (mkWorld (<[p:=[]]> (fs w)) n (trace w ++ [MkTemp p]))) →
  (∀ n, Q (Raise FileExistsError) (mkWorld (fs w) n (trace w))) →
  wp (NamedTemporaryFile P suffix) w Q.
Proof. apply wp_mkstemp_inner. Qed.

Lemma wp_subprocess_run st args w Q :
  (∀ c after, execve P args (fs w) = (c, after) →
     (returncode c = 0%Z →
      Q (Ok c) (mkWorld after (draws w) (trace w ++ [Spawn st args c])))
     ∧ (returncode c ≠ 0%Z →
        Q (Raise (CalledProcessError c))
          (mkWorld after (draws w) (trace w ++ [Spawn st args c])))) →
  wp (subprocess_run P st args) w Q.
Proof.
  intros H. unfold wp, subprocess_run.
  destruct (execve P args (fs w)) as [c after] eqn:E.
  destruct (H c after eq_refl) as [H0 H1].
  destruct (Z.eqb_spec (returncode c) 0); [by apply H0 | by apply H1].
Qed.

Lemma wp_uuid4 w Q :
  Q (Ok (uuid_str (uuid4_int P (draws w))))
    (mkWorld (fs w) (S (draws w)) (trace w)) →
  wp (uuid4 P) w Q.
Proof. done. Qed.

(** The extension's function and the [after_request] functions change the
    headers only. *)
Lemma cors_after_request_status req r :
  status (cors_after_request P req r) = status r.
Proof. unfold cors_after_request. by repeat case_match. Qed.

Lemma cors_after_request_body req r :
  body (cors_after_request P req r) = body r.
Proof. unfold cors_after_request. by repeat case_match. Qed.

Lemma process_response_status req r :
  status (process_response P req r) = status r.
Proof.
  unfold process_response, add_cors_headers.
  rewrite cors_after_request_status. by case_match.
Qed.

Lemma process_response_body req r :
  body (process_response P req r) = body r.
Proof.
  unfold process_response, add_cors_headers.
  rewrite cors_after_request_body. by case_match.
Qed.

Lemma finalize_status req r :
  status (finalize P req r) = status (response_of r).
Proof.
  destruct r as [rv|ex]; cbn [finalize response_of].
  - apply process_response_status.
  - destruct (handle_user_exception ex); cbn;
      by rewrite ?process_response_status, ?cors_after_request_status,
        ?process_response_status.
Qed.

Lemma finalize_body req r :
  body (finalize P req r) = body (response_of r).
Proof.
  destruct r as [rv|ex]; cbn [finalize response_of].
  - apply process_response_body.
  - destruct (handle_user_exception ex); cbn;
      by rewrite ?process_response_body, ?cors_after_request_body,
        ?process_response_body.
Qed.

Lemma finalize_json_field req key r :
  json_field key (finalize P req r) = json_field key (response_of r).
Proof. unfold json_field. by rewrite finalize_body. Qed.

(** [serve] in terms of [wp]. *)
Lemma serve_wp e req w (Q : response → world → Prop) :
  wp (dispatch_request P e req) (mkWorld (fs w) (draws w) [])
     (λ r w', Q (finalize P req r) w') →
  Q (serve P e req w).1 (serve P e req w).2.
Proof.
  unfold wp, serve.
  by destruct (dispatch_request P e req _) as [r w'].
Qed.

End Rules.

Lemma kept P args files c after p :
  keeps_files P →
  execve P args files = (c, after) →
  is_Some (files !! p) → is_Some (after !! p).
Proof. intros Hkeep E H. apply (Hkeep args) in H. by rewrite E in H. Qed.

Lemma fresh_ne (m : gmap str bytes) (p q : str) :
  m !! p = None → is_Some (m !! q) → q ≠ p.
Proof. intros Hp [b Hq] ->. congruence. Qed.

(** [is_Some (m !! p)] for a map built by inserts, deletes and program runs
    over a map that has [p]. *)
Ltac solve_present :=
  lazymatch goal with
  | |- is_Some (<[?p:=_]> _ !! ?p) => rewrite lookup_insert_eq; by eexists
  | |- is_Some (<[_:=_]> _ !! _) =>
      rewrite lookup_insert_ne by congruence; solve_present
  | |- is_Some (delete _ _ !! _) =>
      rewrite lookup_delete_ne by congruence; solve_present
  | Hk : keeps_files _, E : execve _ _ _ = (_, ?after)
    |- is_Some (?after !! _) =>
      apply (kept _ _ _ _ _ _ Hk E); solve_present
  | H : ?m !! ?p = Some _ |- is_Some (?m !! ?p) => rewrite H; by eexists
  end.

(** [m !! p = None] for a map from which [p] was deleted. *)
Ltac solve_absent :=
  lazymatch goal with
  | |- delete ?p _ !! ?p = None => apply lookup_delete_eq
  | |- delete _ _ !! _ = None =>
      rewrite lookup_delete_ne by congruence; solve_absent
  end.

(** A name drawn for a temporary file differs from every name that was
    present when it was drawn. *)
Ltac note_fresh H :=
  lazymatch type of H with
  | _ !! ?p = None =>
      repeat match goal with
        | Hq : _ !! ?q = None |- _ =>
            lazymatch goal with
            | _ : q ≠ p |- _ => fail
            | _ => assert (q ≠ p) by (apply (fresh_ne _ _ _ H); solve_present)
            end
        end
  end.

(** A hypothesis [H : m !! p = None] about a map that has [p] is absurd. *)
Ltac absurd_absent H :=
  exfalso; apply eq_None_not_Some in H; apply H; solve_present.

(** Decide the tests on paths that the facts at hand decide. *)
Ltac norm_cond :=
  repeat first
    [ rewrite (bool_decide_eq_true_2 (_ = _)) by done
    | rewrite (bool_decide_eq_false_2 (_ = _)) by congruence
    | rewrite (bool_decide_eq_true_2 (is_Some _)) by solve_present ];
  cbn [andb negb]; rewrite ?andb_false_r, ?andb_true_r.

(** One step of a handler. *)
Ltac wp_step :=
  lazymatch goal with
  | |- wp (mret _) _ _ => apply wp_ret
  | |- wp (raise _) _ _ => apply wp_raise
  | |- wp (_ ≫= _) _ _ => apply wp_bind
  | |- wp (try_called _) _ _ => apply wp_try_called
  | |- wp (save _ _) _ _ => apply wp_save
  | |- wp (path_exists _) _ _ => apply wp_path_exists
  | |- wp (uuid4 _) _ _ => apply wp_uuid4
  | |- wp (md_getitem _ _) _ _ =>
      apply wp_md_getitem; [intros ? ?|intros ?]
  | |- wp (decode_text _) _ _ =>
      apply wp_decode_text; [intros ? ?|intros ?]; try congruence
  | |- wp (read_file _) _ _ =>
      let H := fresh "Hgone" in
      apply wp_read_file;
      [intros ? ?|intros H; cbn [fs] in H; try absurd_absent H]
  | |- wp (unlink _) _ _ =>
      first [ apply wp_unlink_present; [cbn [fs]; solve_present|]
            | apply wp_unlink; [intros ? ?|intros ?] ]
  | |- wp (mkstemp _ _) _ _ =>
      apply wp_mkstemp;
      [let p := fresh "p" in let H := fresh "Hfresh" in
       intros p ? H; cbn [fs draws trace] in H; note_fresh H
      |intros ?]
  | |- wp (NamedTemporaryFile _ _) _ _ =>
      apply wp_NamedTemporaryFile;
      [let p := fresh "p" in let H := fresh "Hfresh" in
       intros p ? H; cbn [fs draws trace] in H; note_fresh H
      |intros ?]
  | |- wp (subprocess_run _ _ _) _ _ =>
      apply wp_subprocess_run; intros ? ? ?; split; intros ?
  | |- wp (if _ then _ else _) _ _ =>
      norm_cond;
      lazymatch goal with
      | |- wp (if true then _ else _) _ _ => idtac
      | |- wp (if false then _ else _) _ _ => idtac
      | |- wp (if negb ?b then _ else _) _ _ => destruct b eqn:?; cbn [negb]
      | |- wp (if ?b then _ else _) _ _ => destruct b eqn:?
      | |- _ => idtac
      end
  end;
  cbv beta iota; cbn [fs draws trace app] in *; simplify_eq.

Ltac wp_walk :=
  repeat lazymatch goal with |- wp _ _ _ => wp_step end.

(** C4. A request to /process-inline whose [mask] field is not alphanumeric
    is answered with status 400, and the request spawns no subprocess: its
    trace is empty and the file system is as it was. *)
Theorem invalid_mask_rejected (P : platform) (req : request) (w : world)
    (mask : str) :
  md_get (u "mask") (form req) = Some mask →
  isalnum P mask = false →
  status (serve P ProcessInline req w).1 = 400%nat
  ∧ trace (serve P ProcessInline req w).2 = []
  ∧ fs (serve P ProcessInline req w).2 = fs w.
Proof.
  intros Hmask Hal.
  apply (serve_wp P ProcessInline req w
           (λ resp w', status resp = 400%nat ∧ trace w' = [] ∧ fs w' = fs w)).
  cbn [dispatch_request]. unfold process_inline.
  rewrite Hmask. change (default (u "cat") (Some mask)) with mask.
  rewrite Hal. cbn [negb].
  wp_walk; by rewrite finalize_status.
Qed.

(** The witness of C4: the mask ["../evil"] of the specification's scenario. *)
Lemma invalid_mask_rejected_witness :
  status (serve (demo [] []) ProcessInline
            (demo_request (Some (u "../evil"))) demo_world).1 = 400%nat
  ∧ trace (serve (demo [] []) ProcessInline
             (demo_request (Some (u "../evil"))) demo_world).2 = [].
Proof.
  destruct (invalid_mask_rejected (demo [] []) (demo_request (Some (u "../evil")))
              demo_world (u "../evil") eq_refl eq_refl) as (H1 & H2 & _).
  split; [exact H1 | exact H2].
Defined.

(** A mask name for which the mask directory has no file is rejected in the
    same way, whether or not it passes the [isalnum] check.  So a name
    outside [[A-Za-z0-9]] can only reach the programs when it is
    alphanumeric by the Unicode tables and a mask file of that name was
    installed on the server. *)
Lemma missing_mask_rejected (P : platform) (req : request) (w : world) :
  fs w !! fspath (BASE_DIR P // u "masks"
                  // (default (u "cat") (md_get (u "mask") (form req))
                      ++ u ".png")) = None →
  status (serve P ProcessInline req w).1 = 400%nat
  ∧ trace (serve P ProcessInline req w).2 = []
  ∧ fs (serve P ProcessInline req w).2 = fs w.
Proof.
  intros Hmask.
  apply (serve_wp P ProcessInline req w
           (λ resp w', status resp = 400%nat ∧ trace w' = [] ∧ fs w' = fs w)).
  cbn [dispatch_request]. unfold process_inline.
  destruct (md_contains _ _); cbn [negb];
    [|wp_step; rewrite finalize_status; by split_and!].
  destruct (isalnum _ _); cbn [negb];
    [|wp_step; rewrite finalize_status; by split_and!].
  do 2 wp_step. rewrite Hmask.
  rewrite bool_decide_eq_false_2 by (by intros [? ?]). cbn [negb].
  wp_step. rewrite finalize_status. by split_and!.
Qed.

(** An event is in an explicit trace. *)
Ltac in_trace :=
  solve [repeat first [apply list_elem_of_here | apply list_elem_of_further]].

(** Replace the trace of a closed run by its value. *)
Ltac eval_trace :=
  match goal with
  | |- context [trace ?w] =>
      let t := eval vm_compute in (trace w) in
      let H := fresh in
      assert (trace w = t) as H by (vm_compute; reflexivity);
      rewrite !H; clear H
  end.

(** Membership of an event in an explicit trace, case by case. *)
Ltac cases_in_trace := decompose_list_elem_of; simplify_eq.

Ltac finalized :=
  rewrite ?finalize_status, ?finalize_body, ?finalize_json_field;
  cbn [response_of].

Section Inline.
Context (P : platform) (Hkeep : keeps_files P).

(** A failed staging transcode or overlay run ends the request with status
    500 and with every temporary file of the request deleted. *)
Lemma inline_failure_cleans req w :
  wp (process_inline P req) (mkWorld (fs w) (draws w) [])
    (λ r w', ∀ st args c,
       Spawn st args c ∈ trace w' →
       returncode c ≠ 0%Z → st ≠ Finalizing →
       status (finalize P req r) = 500%nat
       ∧ ∀ p, MkTemp p ∈ trace w' → fs w' !! p = None).
Proof.
  unfold process_inline. wp_walk.
  all: intros ? ? ? Hin Hrc Hst.
  all: cases_in_trace; finalized.
  all: (split; [done|]).
  all: intros q Hq; cases_in_trace; solve_absent.
Qed.


(** When the final transcode fails after a successful overlay run, the
    response is 200 and carries the content of the overlay's output file. *)
Lemma inline_fallback req w :
  wp (process_inline P req) (mkWorld (fs w) (draws w) [])
    (λ r w', ∀ args c args' c',
       Spawn Overlaying args c ∈ trace w' →
       Spawn Finalizing args' c' ∈ trace w' →
       returncode c' ≠ 0%Z →
       is_Some (decode (stderr c')) →
       returncode c = 0%Z
       ∧ status (finalize P req r) = 200%nat
       ∧ ∃ out b, last args = Some out ∧ args' !! 3%nat = Some out
                  ∧ last (trace w') = Some (ReadFile out b)
                  ∧ body (finalize P req r) = Raw b).
Proof.
  unfold process_inline. wp_walk.
  all: intros ? ? ? ? Hov Hfin Hrc [? Hdec].
  all: cases_in_trace; finalized.
  all: split_and!; [done..|].
  all: eexists _, _; split_and!; reflexivity.
Qed.

(** When the diagnostic of a failed final transcode is not UTF-8, the
    warning that prints it raises before the fallback: the view ends in
    [UnicodeDecodeError] with every temporary file of the request still
    there. *)
Lemma inline_warning_raises req w :
  wp (process_inline P req) (mkWorld (fs w) (draws w) [])
    (λ r w', ∀ args c,
       Spawn Finalizing args c ∈ trace w' →
       returncode c ≠ 0%Z →
       decode (stderr c) = None →
       r = Raise UnicodeDecodeError
       ∧ ∀ p, MkTemp p ∈ trace w' → is_Some (fs w' !! p)).
Proof.
  unfold process_inline. wp_walk.
  all: intros ? ? Hin Hrc Hdec; cases_in_trace.
  all: split; [done|].
  all: intros q Hq; cases_in_trace; cbn [fs]; solve_present.
Qed.

(** The name created for the final transcode outlives a failed transcode. *)
Lemma inline_finalize_leak req w :
  wp (process_inline P req) (mkWorld (fs w) (draws w) [])
    (λ r w', ∀ args c,
       Spawn Finalizing args c ∈ trace w' →
       returncode c ≠ 0%Z →
       ∃ p, last args = Some p ∧ MkTemp p ∈ trace w'
            ∧ is_Some (fs w' !! p)).
Proof.
  unfold process_inline. wp_walk.
  all: intros ? ? Hin Hrc.
  all: cases_in_trace.
  all: eexists; split_and!; [reflexivity|set_solver|cbn [fs]; solve_present].
Qed.

(** When the view returns a response and the final transcode did not fail,
    every temporary file of the request is gone. *)
Lemma inline_cleanup req w :
  wp (process_inline P req) (mkWorld (fs w) (draws w) [])
    (λ r w',
       (∀ args c,
          Spawn Finalizing args c ∈ trace w' → returncode c = 0%Z) →
       is_Some (match r with Ok resp => Some resp | Raise _ => None end) →
       ∀ p, MkTemp p ∈ trace w' → fs w' !! p = None).
Proof.
  unfold process_inline. wp_walk.
  all: intros Hfin [? Hret] q Hq; simplify_eq.
  all: try match goal with
         | Hne : returncode _ ≠ 0%Z |- _ =>
             exfalso; apply Hne; eapply Hfin; in_trace
         end.
  all: cases_in_trace; solve_absent.
Qed.

End Inline.

(** The stages of /process-inline run in a fixed order, each at most once,
    and the overlay program gets the mask file of the [mask] field, or of
    ["cat"] when the field is absent. *)
Lemma inline_spawns (P : platform) req w :
  wp (process_inline P req) (mkWorld (fs w) (draws w) [])
    (λ r w',
       spawned (trace w') `prefix_of` [Staging; Overlaying; Finalizing]
       ∧ ∀ args c,
           Spawn Overlaying args c ∈ trace w' →
           args !! 3%nat
           = Some (fspath (BASE_DIR P // u "masks"
                           // (default (u "cat") (md_get (u "mask") (form req))
                               ++ u ".png")))).
Proof.
  unfold process_inline. wp_walk.
  all: split; [cbn; by repeat first [apply prefix_nil | apply prefix_cons]|].
  all: intros ? ? Hin; by cases_in_trace.
Qed.

(** Whenever /process-inline runs the overlay program, the mask name had
    passed the [isalnum] check, the mask file joined from it existed when
    the request arrived, and that file is the program's mask argument. *)
Lemma inline_mask (P : platform) req w :
  wp (process_inline P req) (mkWorld (fs w) (draws w) [])
    (λ r w',
       let mask_name := default (u "cat") (md_get (u "mask") (form req)) in
       let mask_path := BASE_DIR P // u "masks" // (mask_name ++ u ".png") in
       ∀ args c,
         Spawn Overlaying args c ∈ trace w' →
         isalnum P mask_name = true
         ∧ is_Some (fs w !! fspath mask_path)
         ∧ args !! 3%nat = Some (fspath mask_path)).
Proof.
  unfold process_inline. wp_walk.
  all: cbv zeta; intros ? ? Hin; cases_in_trace.
  all: split_and!; [done| |done].
  all: by match goal with
          | H : bool_decide _ = true |- _ => apply bool_decide_eq_true in H
          end.
Qed.

(** C5. Whatever the request, a mask path that /process-inline hands to the
    overlay program was resolved from a mask name that passed the
    [isalnum] check, names a file that existed in the mask directory when
    the request arrived, and lies directly inside the mask directory
    [BASE_DIR / "masks"]: its parent is that directory, its last component
    is the name followed by [".png"], that component contains no slash and
    is not [".."], and the path string is the directory's string, a slash,
    and the component. *)
Theorem mask_path_inside_mask_dir (P : platform) (req : request) (w : world)
    (args : list str) (c : completed) :
  Spawn Overlaying args c ∈ trace (serve P ProcessInline req w).2 →
  let mask_name := default (u "cat") (md_get (u "mask") (form req)) in
  let mask_dir := BASE_DIR P // u "masks" in
  let mask_path := mask_dir // (mask_name ++ u ".png") in
  isalnum P mask_name = true
  ∧ args !! 3%nat = Some (fspath mask_path)
  ∧ is_Some (fs w !! fspath mask_path)
  ∧ parent mask_path = mask_dir
  ∧ name mask_path = mask_name ++ u ".png"
  ∧ (chr_slash ∉ name mask_path)
  ∧ name mask_path ≠ u ".."
  ∧ fspath mask_path = fspath mask_dir ++ u "/" ++ mask_name ++ u ".png".
Proof.
  intros Hin mask_name mask_dir mask_path. revert args c Hin.
  apply (serve_wp P ProcessInline req w
           (λ _ w', ∀ args c,
              Spawn Overlaying args c ∈ trace w' →
              isalnum P mask_name = true
              ∧ args !! 3%nat = Some (fspath mask_path)
              ∧ is_Some (fs w !! fspath mask_path)
              ∧ parent mask_path = mask_dir
              ∧ name mask_path = mask_name ++ u ".png"
              ∧ (chr_slash ∉ name mask_path)
              ∧ name mask_path ≠ u ".."
              ∧ fspath mask_path
                = fspath mask_dir ++ u "/" ++ mask_name ++ u ".png")).
  eapply wp_mono; [apply inline_mask|]. intros r w' H args c Hin.
  destruct (H args c Hin) as (Hal & Hfile & Harg).
  split; [exact Hal|]. split; [exact Harg|]. split; [exact Hfile|].
  exact (alnum_mask_path P mask_name Hal).
Qed.

(** The witness of C5: the mask ["dog"], whose file is installed. *)
Lemma mask_path_inside_mask_dir_witness :
  let rw := serve (demo [] []) ProcessInline (demo_request (Some (u "dog")))
              demo_world in
  ∃ args c,
    Spawn Overlaying args c ∈ trace rw.2
    ∧ args !! 3%nat = Some (u "/srv/app/masks/dog.png").
Proof.
  intros rw. subst rw.
  assert (∃ args c,
            Spawn Overlaying args c
            ∈ trace (serve (demo [] []) ProcessInline
                       (demo_request (Some (u "dog"))) demo_world).2)
    as (args & c & Hin).
  { eval_trace. eexists _, _. in_trace. }
  exists args, c. split; [exact Hin|].
  destruct (mask_path_inside_mask_dir _ _ _ _ _ Hin) as (_ & Harg & _).
  rewrite Harg. by vm_compute.
Defined.

Lemma md_get_contains {V} key (d : list (str * V)) :
  md_contains key d = true → is_Some (md_get key d).
Proof.
  unfold md_contains. intros H%bool_decide_eq_true.
  induction d as [|[k v] d IH]; [by apply elem_of_nil in H|].
  simpl. case_bool_decide; [by eexists|].
  apply IH. apply elem_of_cons in H as [?|?]; done.
Qed.

Lemma md_get_absent {V} key (d : list (str * V)) :
  md_contains key d = false → md_get key d = None.
Proof.
  unfold md_contains. intros H%bool_decide_eq_false.
  induction d as [|[k v] d IH]; [done|].
  simpl. case_bool_decide as Hk.
  - destruct H. subst. left.
  - apply IH. intros Hin. apply H. by right.
Qed.

Section UploadView.
Context (P : platform).

(** What /upload does, in full: without a [video] field it answers 400 and
    touches nothing; otherwise it stores the upload under the UUID, runs the
    overlay program once, and answers by the program's exit status. *)
Lemma upload_spec req w :
  wp (upload P req) (mkWorld (fs w) (draws w) [])
    (λ r w',
       let id := uuid_str (uuid4_int P (draws w)) in
       match md_get (u "video") (files req) with
       | None =>
           r = Ok (with_status
                     (jsonify [(u "error", u "No video field in form")]) 400)
           ∧ trace w' = [] ∧ fs w' = fs w
       | Some video =>
           ∃ c after,
             execve P (upload_cmd P id)
               (<[fspath (UPLOAD_DIR P // (id ++ u ".webm")):=video]> (fs w))
             = (c, after)
             ∧ trace w' = [Spawn Overlaying (upload_cmd P id) c]
             ∧ fs w' = after
             ∧ r = if (returncode c =? 0)%Z
                   then Ok (jsonify [(u "processed_url",
                                      u "/processed/" ++ id ++ u "_mask.mp4")])
                   else match decode (stderr c) with
                        | Some t =>
                            Ok (with_status
                                  (jsonify [(u "error", u "Processing failed");
                                            (u "details", t)]) 500)
                        | None => Raise UnicodeDecodeError
                        end
       end).
Proof.
  unfold upload.
  destruct (md_contains (u "video") (files req)) eqn:Hv; cbn [negb].
  - apply md_get_contains in Hv as [video Hv]. rewrite Hv.
    do 4 wp_step. cbv zeta.
    rewrite secure_filename_uuid, stem_uuid_webm.
    wp_walk.
    all: eexists _, _; split; [eassumption|].
    all: split; [reflexivity|]; split; [reflexivity|].
    + by rewrite (proj2 (Z.eqb_eq _ _)).
    + rewrite (proj2 (Z.eqb_neq _ _)) by done.
      by match goal with H : decode _ = _ |- _ => rewrite H end.
    + rewrite (proj2 (Z.eqb_neq _ _)) by done.
      by match goal with H : decode _ = _ |- _ => rewrite H end.
  - rewrite (md_get_absent _ _ Hv). by wp_step.
Qed.

End UploadView.

(** ** Cross-origin headers *)

Lemma acao_ok_Response data mimetype : acao_ok (Response data mimetype).
Proof. by left. Qed.

Lemma acao_ok_with_status r code : acao_ok r → acao_ok (with_status r code).
Proof. done. Qed.

Lemma acao_ok_set_origin r : acao_ok (set_header ACAO ORIGIN r).
Proof. right. cbn [headers set_header]. by rewrite hdr_getlist_set. Qed.

Lemma acao_ok_set_other key v r :
  ieq key ACAO = false → acao_ok r → acao_ok (set_header key v r).
Proof.
  intros Hk Hr. unfold acao_ok. cbn [headers set_header].
  by rewrite hdr_getlist_set, Hk.
Qed.

Ltac solve_acao :=
  repeat first
    [ apply acao_ok_Response
    | apply acao_ok_with_status
    | apply acao_ok_set_origin
    | apply acao_ok_set_other; [by vm_compute|] ].

Section Cors.
Context (P : platform).

Lemma add_cors_headers_acao r :
  acao_ok r → hdr_getlist ACAO (headers (add_cors_headers r)) = [ORIGIN].
Proof.
  unfold add_cors_headers. intros Hr.
  destruct (hdr_contains ACAO (headers r)) eqn:E; cbn [negb].
  - destruct Hr as [Hr|Hr]; [|done].
    apply hdr_contains_getlist in Hr. congruence.
  - cbn [headers set_header]. by rewrite !hdr_getlist_set.
Qed.

(** The extension's function leaves a response alone that has a non-empty
    first value. *)
Lemma cors_after_request_skip req r c v l :
  hdr_getlist ACAO (headers r) = (c :: v) :: l → cors_after_request P req r = r.
Proof. intros Hr. unfold cors_after_request, hdr_get. by rewrite Hr. Qed.

(** After [add_cors_headers] the extension's function has nothing to add. *)
Lemma process_response_acao req r :
  acao_ok r → process_response P req r = add_cors_headers r.
Proof.
  intros Hr. unfold process_response.
  eapply cors_after_request_skip. by apply add_cors_headers_acao.
Qed.

Lemma process_response_single req r :
  acao_ok r → hdr_getlist ACAO (headers (process_response P req r)) = [ORIGIN].
Proof.
  intros Hr. rewrite process_response_acao by done.
  by apply add_cors_headers_acao.
Qed.

Lemma hdr_getlist_app key h h' :
  hdr_getlist key (h ++ h') = hdr_getlist key h ++ hdr_getlist key h'.
Proof.
  induction h as [|[k v] h IH]; [done|].
  simpl. by rewrite !hdr_getlist_cons, IH, app_assoc.
Qed.

Lemma foldl_hdr_add (l h : list (str * str)) :
  foldl (λ h kv, hdr_add kv.1 kv.2 h) h l = h ++ l.
Proof.
  revert h. induction l as [|[k v] l IH]; intros h; simpl.
  - by rewrite app_nil_r.
  - rewrite IH. unfold hdr_add. by rewrite <- app_assoc.
Qed.

(** The origins the extension allows for a request: none, or one that is
    not empty. *)
Lemma get_cors_origins_cases req :
  let origins := get_cors_origins (hdr_get (u "Origin") (req_headers req)) in
  origins = [] ∨ ∃ c v, origins = [c :: v] ∧ allowed_origin req (c :: v).
Proof.
  cbv zeta. unfold get_cors_origins.
  destruct (hdr_get _ _) as [[|c o]|] eqn:Ho.
  - right. eexists _, _. split; [reflexivity|by left].
  - destruct (ieq (c :: o) ORIGIN) eqn:Hm; [|by left].
    right. eexists _, _. split; [reflexivity|by right].
  - right. eexists _, _. split; [reflexivity|by left].
Qed.

(** What the extension computes has the allowed origin as its only
    [Access-Control-Allow-Origin]. *)
Lemma get_cors_headers_acao req :
  hdr_getlist ACAO (get_cors_headers P req)
  = get_cors_origins (hdr_get (u "Origin") (req_headers req)).
Proof.
  unfold get_cors_headers.
  destruct (get_cors_origins_cases req) as [->|(c & v & -> & _)]; [done|].
  rewrite hdr_getlist_cons, hdr_getlist_purged.
  by replace (ieq ACAO ACAO) with true by (by vm_compute).
Qed.

(** A response with no [Access-Control-Allow-Origin] gets the allowed
    origin from the extension's function. *)
Lemma cors_after_request_acao req r :
  hdr_getlist ACAO (headers r) = [] →
  hdr_getlist ACAO (headers (cors_after_request P req r))
  = get_cors_origins (hdr_get (u "Origin") (req_headers req)).
Proof.
  intros Hr. unfold cors_after_request, hdr_get. rewrite Hr. cbn [head headers].
  by rewrite foldl_hdr_add, hdr_getlist_app, Hr, get_cors_headers_acao.
Qed.

(** A view's response, and the 500 made of an exception that is no HTTP
    exception, get their cross-origin headers from [add_cors_headers]. *)
Lemma finalize_view req r :
  acao_ok (response_of r) →
  match r with
  | Ok _ => True
  | Raise ex => handle_user_exception ex = None
  end →
  finalize P req r = add_cors_headers (response_of r).
Proof.
  destruct r as [rv|ex]; cbn [finalize response_of]; intros Hok Hex.
  - by apply process_response_acao.
  - rewrite Hex in *. cbn in Hok |- *.
    rewrite process_response_acao by done.
    eapply cors_after_request_skip. by apply add_cors_headers_acao.
Qed.

(** Whatever the view returned or raised, the response ends with exactly
    one [Access-Control-Allow-Origin], an allowed origin. *)
Lemma finalize_single req r :
  acao_ok (response_of r) →
  ∃ v, hdr_getlist ACAO (headers (finalize P req r)) = [v]
       ∧ allowed_origin req v.
Proof.
  intros Hok. destruct r as [rv|ex]; cbn [finalize response_of] in *.
  { exists ORIGIN. split; [by apply process_response_single|by left]. }
  destruct (handle_user_exception ex) as [rv|]; cbn in Hok.
  - destruct Hok as [Hnone|Hone].
    + pose proof (cors_after_request_acao req rv Hnone) as Hc.
      destruct (get_cors_origins_cases req) as [Ho|(c & v & Ho & Hv)];
        cbv zeta in Ho; rewrite Ho in Hc.
      * exists ORIGIN. split; [|by left].
        apply process_response_single. by left.
      * exists (c :: v). split; [|done].
        unfold process_response, add_cors_headers.
        assert (hdr_contains ACAO (headers (cors_after_request P req rv)) = true)
          as -> by (apply not_false_iff_true;
                    rewrite hdr_contains_getlist; congruence).
        cbn [negb]. by rewrite (cors_after_request_skip _ _ _ _ _ Hc).
    + rewrite (cors_after_request_skip _ _ _ _ _ Hone).
      exists ORIGIN. split; [|by left].
      apply process_response_single. by right.
  - exists ORIGIN. split; [|by left].
    assert (hdr_getlist ACAO
              (headers (process_response P req InternalServerError)) = [ORIGIN])
      as Hone by (apply process_response_single; by left).
    by rewrite (cors_after_request_skip _ _ _ _ _ Hone).
Qed.

Lemma wp_send_from_directory directory fname w
    (Q : result response → world → Prop) :
  Q (Raise NotFound) w →
  (∀ b nm, Q (Ok (set_header (u "Content-Disposition")
                    (u "inline; filename=" ++ nm)
                    (Response (Raw b) (guess_type P nm)))) w) →
  wp (send_from_directory P directory fname) w Q.
Proof.
  intros H1 H2. unfold wp, send_from_directory.
  destruct (safe_join _ _) as [path|]; [|done].
  destruct (fs w !! path); [apply H2 | done].
Qed.

(** The quiet views create no temporary file, spawn nothing and leave the
    file system alone. *)
Lemma quiet_run e req w :
  quiet e = true →
  wp (dispatch_request P e req) (mkWorld (fs w) (draws w) [])
    (λ r w', trace w' = [] ∧ fs w' = fs w ∧ acao_ok (response_of r)).
Proof.
  destruct e; try done; intros _; cbn [dispatch_request].
  - unfold index. wp_step. split_and!; [done..|]. solve_acao.
  - apply wp_send_from_directory; [by split_and!; [..|left]|].
    intros. split_and!; [done..|]. cbn [response_of]. solve_acao.
  - unfold handle_options, make_default_options_response. wp_step.
    split_and!; [done..|]. cbn [response_of]. solve_acao.
  - unfold make_default_options_response. wp_step.
    split_and!; [done..|]. cbn [response_of]. solve_acao.
  - wp_step. by split_and!; [..|left].
  - wp_step. split_and!; [done..|].
    cbn [response_of handle_user_exception from_option id].
    unfold http_error. solve_acao.
Qed.

(** /upload returns a response without [Access-Control-Allow-Origin], or
    raises an exception that is no HTTP exception. *)
Lemma upload_acao req w :
  wp (upload P req) (mkWorld (fs w) (draws w) [])
    (λ r w', acao_ok (response_of r)
             ∧ match r with
               | Ok _ => True
               | Raise ex => handle_user_exception ex = None
               end).
Proof.
  eapply wp_mono; [apply upload_spec|]. intros r w' H. cbv zeta in H.
  destruct (md_get _ _).
  - destruct H as (c & after & _ & _ & _ & ->).
    destruct (returncode c =? 0)%Z; [by split; [left|]|].
    destruct (decode _); by split; [left|].
  - destruct H as (-> & _). by split; [left|].
Qed.

Lemma inline_acao req w :
  wp (process_inline P req) (mkWorld (fs w) (draws w) [])
    (λ r w', acao_ok (response_of r)).
Proof.
  unfold process_inline. wp_walk.
  all: cbn [response_of]; first [by left | solve_acao].
Qed.

End Cors.

(** C7. Every response the service emits, whatever answered the request
    (a view, the explicit or the automatic [OPTIONS] response, the router's
    404 or 405, a 400 or 404 raised inside a view, or the 500 made from any
    other exception), carries exactly one [Access-Control-Allow-Origin]
    value.  That value is the fixed origin, or, on a response made from an
    HTTP exception, the request's own [Origin] when it is the fixed origin
    up to letter case. *)
Theorem single_allow_origin (P : platform) (e : endpoint) (req : request)
    (w : world) :
  length (hdr_getlist ACAO (headers (serve P e req w).1)) = 1%nat
  ∧ ∃ v, hdr_getlist ACAO (headers (serve P e req w).1) = [v]
         ∧ allowed_origin req v.
Proof.
  assert (∃ v, hdr_getlist ACAO (headers (serve P e req w).1) = [v]
               ∧ allowed_origin req v) as (v & Hv & Hal);
    [|rewrite Hv; split; [done|by exists v]].
  apply (serve_wp P e req w
           (λ resp _, ∃ v, hdr_getlist ACAO (headers resp) = [v]
                           ∧ allowed_origin req v)).
  assert (wp (dispatch_request P e req) (mkWorld (fs w) (draws w) [])
            (λ r _, acao_ok (response_of r))) as Hok.
  { destruct (quiet e) eqn:Hq.
    - eapply wp_mono; [by apply quiet_run|]. by intros r w' (_ & _ & ?).
    - destruct e; try done.
      + eapply wp_mono; [apply upload_acao|]. by intros r w' [? _].
      + apply inline_acao. }
  eapply wp_mono; [exact Hok|]. intros r w' Hr.
  by apply finalize_single.
Qed.

(** The router's 404 for a request from the fixed origin written in another
    letter case: the extension's function sees the response first and gives
    the request's [Origin] back, and [add_cors_headers] adds nothing. *)
Example not_found_echoes_origin :
  headers (serve (demo [] []) RouteNotFound
             (mkRequest (u "GET")
                [(u "Origin", u "https://BrooksWimer.github.io")] [] [])
             demo_world).1
  = [(u "Content-Type", u "text/html; charset=utf-8");
     (ACAO, u "https://BrooksWimer.github.io")].
Proof. by vm_compute. Qed.

(** The same 404 for a request from another origin: the extension allows
    nothing, and [add_cors_headers] sets its three headers. *)
Example not_found_for_another_origin :
  headers (serve (demo [] []) RouteNotFound
             (mkRequest (u "GET") [(u "Origin", u "https://example.org")] [] [])
             demo_world).1
  = [(u "Content-Type", u "text/html; charset=utf-8");
     (ACAO, ORIGIN);
     (ACAH, u "Content-Type");
     (ACAM, u "POST, GET, OPTIONS")].
Proof. by vm_compute. Qed.

(** ** Running the concrete platform *)

Lemma demo_keeps_files failing diag : keeps_files (demo failing diag).
Proof.
  intros args files p Hp. cbn. unfold scripted.
  case_bool_decide; cbn; [done|].
  apply lookup_insert_is_Some'. by right.
Qed.

(** ** Temporary files *)

(** C1, on the path where the final transcode fails.  The upload is
    processed, the final [ffmpeg] exits with status 1, the response is the
    200 fallback, and the file created by [mkstemp] for the final output is
    still there after the response: [final_mp4] was rebound to
    [output_path] before the cleanup tested it. *)
Theorem failed_finalization_leaks_temp_file :
  let rw := serve (demo [Finalizing] [x62]) ProcessInline
              (demo_request None) demo_world in
  status rw.1 = 200%nat
  ∧ MkTemp (u "/tmp/tmp00000003.mp4") ∈ trace rw.2
  ∧ fs rw.2 !! u "/tmp/tmp00000003.mp4" = Some [].
Proof.
  intros rw. subst rw. split_and!.
  - by vm_compute.
  - eval_trace. in_trace.
  - by vm_compute.
Qed.

(** The same for every platform whose programs remove no file: after a
    failed final transcode its output name, a temporary file of the
    request, exists when the request is over. *)
Lemma failed_finalization_always_leaks (P : platform) (req : request)
    (w : world) :
  keeps_files P →
  ∀ args c,
    Spawn Finalizing args c ∈ trace (serve P ProcessInline req w).2 →
    returncode c ≠ 0%Z →
    ∃ p, last args = Some p
         ∧ MkTemp p ∈ trace (serve P ProcessInline req w).2
         ∧ is_Some (fs (serve P ProcessInline req w).2 !! p).
Proof.
  intros Hkeep.
  apply (serve_wp P ProcessInline req w
           (λ _ w', ∀ args c,
              Spawn Finalizing args c ∈ trace w' → returncode c ≠ 0%Z →
              ∃ p, last args = Some p ∧ MkTemp p ∈ trace w'
                   ∧ is_Some (fs w' !! p))).
  by apply inline_finalize_leak.
Qed.

(** ** Failing programs *)

(** C2 fails for the final transcode: its failure is answered with 200. *)
Lemma every_tool_failure_is_500_counterexample :
  ¬ every_tool_failure_is_500 (demo [Finalizing] [x62]) ProcessInline
      (demo_request None) demo_world.
Proof.
  intros H.
  assert (∃ args c,
            Spawn Finalizing args c
            ∈ trace (serve (demo [Finalizing] [x62]) ProcessInline
                       (demo_request None) demo_world).2
            ∧ returncode c ≠ 0%Z) as (args & c & Hin & Hrc).
  { eval_trace. eexists _, _. split; [in_trace|done]. }
  destruct (H _ _ _ Hin Hrc) as [Hst _].
  by vm_compute in Hst.
Qed.

(** C2, amended.  When the staging transcode or the overlay program exits
    non-zero, on /process-inline or on /upload, the response has status 500
    and no temporary file created by the request exists afterwards. *)
Theorem staging_or_overlay_failure_is_500 (P : platform) (e : endpoint)
    (req : request) (w : world) :
  keeps_files P →
  ∀ st args c,
    Spawn st args c ∈ trace (serve P e req w).2 →
    returncode c ≠ 0%Z →
    st ≠ Finalizing →
    status (serve P e req w).1 = 500%nat
    ∧ ∀ p, MkTemp p ∈ trace (serve P e req w).2 →
           fs (serve P e req w).2 !! p = None.
Proof.
  intros Hkeep.
  apply (serve_wp P e req w
           (λ resp w', ∀ st args c,
              Spawn st args c ∈ trace w' →
              returncode c ≠ 0%Z → st ≠ Finalizing →
              status resp = 500%nat
              ∧ ∀ p, MkTemp p ∈ trace w' → fs w' !! p = None)).
  destruct (quiet e) eqn:Hq.
  { eapply wp_mono; [by apply quiet_run|]. intros r w' (Htr & _ & _).
    rewrite Htr. intros ? ? ? Hin. by apply elem_of_nil in Hin. }
  destruct e; try done; [|by apply inline_failure_cleans].
  eapply wp_mono; [apply upload_spec|]. intros r w' H. cbv zeta in H.
  destruct (md_get _ _).
  - destruct H as (c & after & _ & -> & _ & ->).
    intros ? ? ? Hin Hrc _. cases_in_trace.
    rewrite (proj2 (Z.eqb_neq _ _)) by done. finalized.
    split; [by destruct (decode _)|].
    intros p Hp. cases_in_trace.
  - destruct H as (_ & -> & _). intros ? ? ? Hin. by apply elem_of_nil in Hin.
Qed.

(** The witness of C2, amended: a failing staging transcode. *)
Lemma staging_or_overlay_failure_is_500_witness :
  let rw := serve (demo [Staging] [x62]) ProcessInline
              (demo_request None) demo_world in
  status rw.1 = 500%nat
  ∧ ∀ p, MkTemp p ∈ trace rw.2 → fs rw.2 !! p = None.
Proof.
  intros rw. subst rw.
  eapply (staging_or_overlay_failure_is_500 (demo [Staging] [x62])
            ProcessInline (demo_request None) demo_world
            (demo_keeps_files _ _) Staging).
  - eval_trace. in_trace.
  - done.
  - done.
Defined.

(** The fallback of the final transcode.  When the final transcode is
    spawned and exits non-zero with a diagnostic that is UTF-8, the overlay
    run before it had succeeded, the response has status 200, and its body
    is the bytes the handler read, as its last action on the environment,
    from the overlay program's output path, which is also the input of the
    failed transcode. *)
Lemma finalization_failure_falls_back (P : platform) (req : request)
    (w : world) :
  keeps_files P →
  ∀ args c args' c',
    Spawn Overlaying args c ∈ trace (serve P ProcessInline req w).2 →
    Spawn Finalizing args' c' ∈ trace (serve P ProcessInline req w).2 →
    returncode c' ≠ 0%Z →
    is_Some (decode (stderr c')) →
    returncode c = 0%Z
    ∧ status (serve P ProcessInline req w).1 = 200%nat
    ∧ ∃ out b,
        last args = Some out ∧ args' !! 3%nat = Some out
        ∧ last (trace (serve P ProcessInline req w).2) = Some (ReadFile out b)
        ∧ body (serve P ProcessInline req w).1 = Raw b.
Proof.
  intros Hkeep.
  apply (serve_wp P ProcessInline req w
           (λ resp w', ∀ args c args' c',
              Spawn Overlaying args c ∈ trace w' →
              Spawn Finalizing args' c' ∈ trace w' →
              returncode c' ≠ 0%Z →
              is_Some (decode (stderr c')) →
              returncode c = 0%Z
              ∧ status resp = 200%nat
              ∧ ∃ out b, last args = Some out ∧ args' !! 3%nat = Some out
                         ∧ last (trace w') = Some (ReadFile out b)
                         ∧ body resp = Raw b)).
  by apply inline_fallback.
Qed.

(** On the concrete platform: the final transcode fails with the diagnostic
    ["b"]; the body is the upload as the scripted overlay program copied
    it. *)
Lemma finalization_failure_falls_back_witness :
  let rw := serve (demo [Finalizing] [x62]) ProcessInline
              (demo_request None) demo_world in
  status rw.1 = 200%nat ∧ body rw.1 = Raw [x1a; x45; xdf; xa3].
Proof.
  intros rw. subst rw.
  edestruct (finalization_failure_falls_back (demo [Finalizing] [x62])
               (demo_request None) demo_world (demo_keeps_files _ _))
    as (_ & Hst & out & b & _ & _ & _ & Hb).
  - eval_trace. in_trace.
  - eval_trace. in_trace.
  - done.
  - by eexists.
  - split; [exact Hst|]. by vm_compute.
Defined.

(** C3, on a final transcode whose diagnostic is not UTF-8.  The staging
    transcode and the overlay program succeed and the final [ffmpeg] exits
    with status 1 and the byte [0xff] on its standard error.  The [except]
    block evaluates [e.stderr.decode()] for its warning before it rebinds
    [final_mp4]; the decoding raises, so the fallback is not reached: the
    response is Flask's 500 page instead of the overlay's output, and the
    four temporary files of the request are left, the overlay's output
    among them with the bytes that should have been served. *)
Theorem undecodable_warning_defeats_fallback :
  let rw := serve (demo [Finalizing] [xff]) ProcessInline (demo_request None)
              demo_world in
  spawned (trace rw.2) = [Staging; Overlaying; Finalizing]
  ∧ (∀ args c, Spawn Overlaying args c ∈ trace rw.2 → returncode c = 0%Z)
  ∧ status rw.1 = 500%nat
  ∧ body rw.1 = Html (u "Internal Server Error")
  ∧ fs rw.2 !! u "/tmp/tmp00000002.mp4" = Some [x1a; x45; xdf; xa3]
  ∧ ∀ p, MkTemp p ∈ trace rw.2 → is_Some (fs rw.2 !! p).
Proof.
  intros rw. subst rw. split_and!.
  - by vm_compute.
  - eval_trace. intros args c Hin. by cases_in_trace.
  - by vm_compute.
  - by vm_compute.
  - by vm_compute.
  - eval_trace. intros p Hp. cases_in_trace; vm_compute; by eexists.
Qed.

(** The same for every platform whose programs remove no file: a failed
    final transcode whose diagnostic is not UTF-8 is answered with 500, and
    every temporary file of the request is left. *)
Lemma undecodable_warning_always_fails (P : platform) (req : request)
    (w : world) :
  keeps_files P →
  ∀ args c,
    Spawn Finalizing args c ∈ trace (serve P ProcessInline req w).2 →
    returncode c ≠ 0%Z →
    decode (stderr c) = None →
    status (serve P ProcessInline req w).1 = 500%nat
    ∧ ∀ p, MkTemp p ∈ trace (serve P ProcessInline req w).2 →
           is_Some (fs (serve P ProcessInline req w).2 !! p).
Proof.
  intros Hkeep.
  apply (serve_wp P ProcessInline req w
           (λ resp w', ∀ args c,
              Spawn Finalizing args c ∈ trace w' → returncode c ≠ 0%Z →
              decode (stderr c) = None →
              status resp = 500%nat
              ∧ ∀ p, MkTemp p ∈ trace w' → is_Some (fs w' !! p))).
  eapply wp_mono; [by apply inline_warning_raises|].
  intros r w' H args c Hin Hrc Hdec.
  destruct (H args c Hin Hrc Hdec) as [-> Hleft].
  split; [by rewrite finalize_status|exact Hleft].
Qed.





(** What the client gets on /upload when the diagnostic is not UTF-8:
    [e.stderr.decode()] raises inside the [except] block, and Flask answers
    with its own 500 page. *)
Example undecodable_stderr_on_upload :
  let rw := serve (demo [Overlaying] [xff]) Upload (demo_request None)
              demo_world in
  status rw.1 = 500%nat ∧ body rw.1 = Html (u "Internal Server Error").
Proof. by vm_compute. Qed.

(** ** The persisted route *)

Lemma uuid_child_name (dir : Path) n (ext : str) :
  chr_slash ∉ ext →
  dir // (uuid_str n ++ ext) = mkPath (root dir) (tail dir ++ [uuid_str n ++ ext])
  ∧ name (dir // (uuid_str n ++ ext)) = uuid_str n ++ ext.
Proof.
  intros Hext. destruct (uuid_plain_name n ext Hext) as (? & ? & ?).
  rewrite truediv_plain by done. by rewrite name_snoc.
Qed.

(** C6. A successful POST to /upload answers with the JSON object
    [{"processed_url": "/processed/<id>_mask.mp4"}], where [<id>] is the
    UUID drawn for this request: the upload was stored in the upload
    directory under the name [<id>.webm], and the overlay program, run once
    and successfully on that stored file, was given the output path
    [<id>_mask.mp4] in the processed directory. *)
Theorem upload_output_name (P : platform) (req : request) (w : world) :
  status (serve P Upload req w).1 = 200%nat →
  let id := uuid_str (uuid4_int P (draws w)) in
  let input_path := UPLOAD_DIR P // (id ++ u ".webm") in
  let output_path := PROCESSED_DIR P // (id ++ u "_mask.mp4") in
  body (serve P Upload req w).1
  = Json [(u "processed_url", u "/processed/" ++ id ++ u "_mask.mp4")]
  ∧ name input_path = id ++ u ".webm"
  ∧ name output_path = id ++ u "_mask.mp4"
  ∧ ∃ video c after,
      md_get (u "video") (files req) = Some video
      ∧ execve P (upload_cmd P id) (<[fspath input_path:=video]> (fs w))
        = (c, after)
      ∧ returncode c = 0%Z
      ∧ upload_cmd P id !! 2%nat = Some (fspath input_path)
      ∧ upload_cmd P id !! 4%nat = Some (fspath output_path)
      ∧ trace (serve P Upload req w).2 = [Spawn Overlaying (upload_cmd P id) c].
Proof.
  intros Hst id input_path output_path. revert Hst.
  apply (serve_wp P Upload req w
           (λ resp w', status resp = 200%nat →
              body resp
              = Json [(u "processed_url", u "/processed/" ++ id ++ u "_mask.mp4")]
              ∧ name input_path = id ++ u ".webm"
              ∧ name output_path = id ++ u "_mask.mp4"
              ∧ ∃ video c after,
                  md_get (u "video") (files req) = Some video
                  ∧ execve P (upload_cmd P id)
                      (<[fspath input_path:=video]> (fs w)) = (c, after)
                  ∧ returncode c = 0%Z
                  ∧ upload_cmd P id !! 2%nat = Some (fspath input_path)
                  ∧ upload_cmd P id !! 4%nat = Some (fspath output_path)
                  ∧ trace w' = [Spawn Overlaying (upload_cmd P id) c])).
  cbn [dispatch_request].
  eapply wp_mono; [apply upload_spec|]. intros r w' H. cbv zeta in H.
  fold id in H. fold input_path in H. finalized.
  destruct (md_get _ _) as [video|].
  - destruct H as (c & after & Hrun & -> & _ & ->).
    destruct (Z.eqb_spec (returncode c) 0) as [Hrc|Hrc].
    + intros _. split; [done|].
      split; [apply uuid_child_name; apply (bool_decide_unpack _); by vm_compute|].
      split; [apply uuid_child_name; apply (bool_decide_unpack _); by vm_compute|].
      by eexists video, c, after.
    + by destruct (decode _).
  - by destruct H as (-> & _).
Qed.

(** The witness of C6. *)
Lemma upload_output_name_witness :
  body (serve (demo [] []) Upload (demo_request None) demo_world).1
  = Json [(u "processed_url",
           u "/processed/01234567-89ab-cdef-0123-456789abcdef_mask.mp4")].
Proof.
  destruct (upload_output_name (demo [] []) (demo_request None) demo_world)
    as (Hb & _).
  - by vm_compute.
  - rewrite Hb. by vm_compute.
Defined.

(** C9. On /upload every spawned program is the overlay processor with the
    default mask file [masks/cat.png]; it is spawned exactly once whenever
    the request has a [video] field; and two requests with the same files
    get the same response and leave the same world, whatever their forms:
    a [mask] field has no effect. *)
Theorem upload_ignores_mask_field (P : platform) (req : request) (w : world) :
  (∀ st args c,
     Spawn st args c ∈ trace (serve P Upload req w).2 →
     st = Overlaying
     ∧ args !! 3%nat = Some (fspath (BASE_DIR P // u "masks" // u "cat.png")))
  ∧ (md_contains (u "video") (files req) = true →
     ∃ args c, trace (serve P Upload req w).2 = [Spawn Overlaying args c])
  ∧ (∀ req', files req' = files req →
             serve P Upload req' w = serve P Upload req w).
Proof.
  split_and!.
  - apply (serve_wp P Upload req w
             (λ _ w', ∀ st args c,
                Spawn st args c ∈ trace w' →
                st = Overlaying
                ∧ args !! 3%nat
                  = Some (fspath (BASE_DIR P // u "masks" // u "cat.png")))).
    eapply wp_mono; [apply upload_spec|]. intros r w' H. cbv zeta in H.
    destruct (md_get _ _).
    + destruct H as (c & after & _ & -> & _). intros ? ? ? Hin.
      by cases_in_trace.
    + destruct H as (_ & -> & _). intros ? ? ? Hin. by apply elem_of_nil in Hin.
  - intros Hv.
    apply (serve_wp P Upload req w
             (λ _ w', ∃ args c, trace w' = [Spawn Overlaying args c])).
    eapply wp_mono; [apply upload_spec|]. intros r w' H. cbv zeta in H.
    apply md_get_contains in Hv as [video Hv]. rewrite Hv in H.
    destruct H as (c & after & _ & -> & _). by eexists _, _.
  - intros req' Hfiles. unfold serve. cbn [dispatch_request].
    assert (upload P req' = upload P req) as ->
      by (unfold upload; by rewrite Hfiles).
    pose proof (upload_acao P req w) as Hok. unfold wp in Hok.
    destruct (upload P req _) as [r w']. cbn [fst snd] in Hok.
    destruct Hok as [Hok Hex]. f_equal. by rewrite !finalize_view.
Qed.

(** ** The mask field *)

(** C10. A /process-inline request whose [mask] field is present and empty
    is answered with 400 and spawns nothing, and, the [video] field being
    there, the error is "Invalid mask name".  The mask file handed to the
    overlay program is that of the field's value whenever the field is
    present, and that of the default ["cat"] only when it is absent. *)
Theorem empty_mask_is_invalid (P : platform) (req : request) (w : world) :
  (md_get (u "mask") (form req) = Some [] →
   status (serve P ProcessInline req w).1 = 400%nat
   ∧ trace (serve P ProcessInline req w).2 = []
   ∧ (md_contains (u "video") (files req) = true →
      json_field (u "error") (serve P ProcessInline req w).1
      = Some (u "Invalid mask name")))
  ∧ (∀ args c,
       Spawn Overlaying args c ∈ trace (serve P ProcessInline req w).2 →
       args !! 3%nat
       = Some (fspath (BASE_DIR P // u "masks"
                       // (match md_get (u "mask") (form req) with
                           | Some mask_name => mask_name
                           | None => u "cat"
                           end ++ u ".png")))).
Proof.
  split.
  - intros Hmask.
    apply (serve_wp P ProcessInline req w
             (λ resp w', status resp = 400%nat ∧ trace w' = []
                ∧ (md_contains (u "video") (files req) = true →
                   json_field (u "error") resp = Some (u "Invalid mask name")))).
    cbn [dispatch_request]. unfold process_inline. rewrite Hmask.
    change (isalnum P (default (u "cat") (Some []))) with false. cbn [negb].
    wp_walk; finalized; by split_and!.
  - apply (serve_wp P ProcessInline req w
             (λ _ w', ∀ args c,
                Spawn Overlaying args c ∈ trace w' →
                args !! 3%nat
                = Some (fspath (BASE_DIR P // u "masks"
                                // (match md_get (u "mask") (form req) with
                                    | Some mask_name => mask_name
                                    | None => u "cat"
                                    end ++ u ".png"))))).
    eapply wp_mono; [apply inline_spawns|]. by intros r w' [_ H].
Qed.

(** The witness of C10. *)
Lemma empty_mask_is_invalid_witness :
  let rw := serve (demo [] []) ProcessInline (demo_request (Some []))
              demo_world in
  status rw.1 = 400%nat
  ∧ json_field (u "error") rw.1 = Some (u "Invalid mask name").
Proof.
  intros rw. subst rw.
  destruct (empty_mask_is_invalid (demo [] []) (demo_request (Some []))
              demo_world) as [H _].
  destruct (H eq_refl) as (Hst & _ & Herr).
  split; [exact Hst|]. by apply Herr.
Defined.

(** * Further properties of the handlers *)

(** ** Requests that are turned away *)

(** One ASCII character that is no letter and no digit fails the check. *)
Lemma isalnum_ascii_symbol (P : platform) (s : str) c :
  c ∈ s → c < 128 → ascii_alnum c = false → isalnum P s = false.
Proof.
  intros Hin Hc Hal. unfold isalnum. destruct s as [|x s]; [done|].
  apply not_true_is_false. rewrite forallb_forall. intros H.
  apply list_elem_of_In, H in Hin. unfold chr_isalnum in Hin.
  apply N.ltb_lt in Hc. rewrite Hc in Hin. congruence.
Qed.

(** ASCII letters and digits pass the check. *)
Lemma isalnum_ascii_word (P : platform) (s : str) :
  s ≠ [] → Forall (λ c, ascii_alnum c = true) s → isalnum P s = true.
Proof.
  intros Hne H. unfold isalnum. destruct s as [|x s]; [done|].
  rewrite forallb_forall. intros c Hc%list_elem_of_In.
  rewrite Forall_forall in H. apply H in Hc as Hal.
  unfold chr_isalnum. replace (c <? 128) with true; [done|].
  symmetry. apply N.ltb_lt. revert Hal.
  unfold ascii_alnum, ascii_digit, ascii_upper, ascii_lower, between.
  rewrite !orb_true_iff, !andb_true_iff, !N.leb_le. lia.
Qed.

(** A POST to /upload without a [video] file is answered with 400 and the
    JSON error of line 30; nothing is stored and nothing is run. *)
Theorem upload_without_video (P : platform) (req : request) (w : world) :
  md_contains (u "video") (files req) = false →
  status (serve P Upload req w).1 = 400%nat
  ∧ body (serve P Upload req w).1
    = Json [(u "error", u "No video field in form")]
  ∧ trace (serve P Upload req w).2 = []
  ∧ fs (serve P Upload req w).2 = fs w.
Proof.
  intros Hv.
  apply (serve_wp P Upload req w
           (λ resp w', status resp = 400%nat
              ∧ body resp = Json [(u "error", u "No video field in form")]
              ∧ trace w' = [] ∧ fs w' = fs w)).
  eapply wp_mono; [apply upload_spec|]. intros r w' H. cbv zeta in H.
  rewrite (md_get_absent _ _ Hv) in H. destruct H as (-> & -> & ->).
  by finalized.
Qed.

(** An instance: a request without files. *)
Lemma upload_without_video_witness :
  body (serve (demo [] []) Upload (mkRequest (u "POST") [] [] []) demo_world).1
  = Json [(u "error", u "No video field in form")].
Proof.
  destruct (upload_without_video (demo [] []) (mkRequest (u "POST") [] [] [])
              demo_world eq_refl) as (_ & H & _).
  exact H.
Defined.

(** The same on /process-inline, whatever the [mask] field. *)
Theorem process_inline_without_video (P : platform) (req : request)
    (w : world) :
  md_contains (u "video") (files req) = false →
  status (serve P ProcessInline req w).1 = 400%nat
  ∧ body (serve P ProcessInline req w).1
    = Json [(u "error", u "No video field in form")]
  ∧ trace (serve P ProcessInline req w).2 = []
  ∧ fs (serve P ProcessInline req w).2 = fs w.
Proof.
  intros Hv.
  apply (serve_wp P ProcessInline req w
           (λ resp w', status resp = 400%nat
              ∧ body resp = Json [(u "error", u "No video field in form")]
              ∧ trace w' = [] ∧ fs w' = fs w)).
  cbn [dispatch_request]. unfold process_inline. rewrite Hv. cbn [negb].
  wp_step. by finalized.
Qed.

(** An instance: a request without files and with a mask that would be
    rejected. *)
Lemma process_inline_without_video_witness :
  body (serve (demo [] []) ProcessInline
          (mkRequest (u "POST") [] [(u "mask", u "../evil")] []) demo_world).1
  = Json [(u "error", u "No video field in form")].
Proof.
  destruct (process_inline_without_video (demo [] [])
              (mkRequest (u "POST") [] [(u "mask", u "../evil")] [])
              demo_world eq_refl) as (_ & H & _).
  exact H.
Defined.



(** A mask name with an ASCII character that is no letter and no digit (a
    slash, a dot, a space, ...) is answered with 400 "Invalid mask name",
    whatever the Unicode tables say about its other characters. *)
Theorem mask_with_ascii_symbol_rejected (P : platform) (req : request)
    (w : world) (mask : str) (c : N) :
  md_contains (u "video") (files req) = true →
  md_get (u "mask") (form req) = Some mask →
  c ∈ mask → c < 128 → ascii_alnum c = false →
  status (serve P ProcessInline req w).1 = 400%nat
  ∧ body (serve P ProcessInline req w).1
    = Json [(u "error", u "Invalid mask name")]
  ∧ trace (serve P ProcessInline req w).2 = []
  ∧ fs (serve P ProcessInline req w).2 = fs w.
Proof.
  intros Hv Hmask Hin Hc Hal.
  apply (serve_wp P ProcessInline req w
           (λ resp w', status resp = 400%nat
              ∧ body resp = Json [(u "error", u "Invalid mask name")]
              ∧ trace w' = [] ∧ fs w' = fs w)).
  cbn [dispatch_request]. unfold process_inline.
  rewrite Hv, Hmask. change (default (u "cat") (Some mask)) with mask.
  rewrite (isalnum_ascii_symbol P mask c) by done. cbn [negb].
  wp_step. by finalized.
Qed.

(** An instance: the mask ["../evil"] and its slash. *)
Lemma mask_with_ascii_symbol_rejected_witness :
  body (serve (demo [] []) ProcessInline (demo_request (Some (u "../evil")))
          demo_world).1
  = Json [(u "error", u "Invalid mask name")].
Proof.
  destruct (mask_with_ascii_symbol_rejected (demo [] [])
              (demo_request (Some (u "../evil"))) demo_world (u "../evil")
              chr_slash eq_refl eq_refl) as (_ & H & _).
  - apply (bool_decide_unpack _). by vm_compute.
  - by vm_compute.
  - reflexivity.
  - exact H.
Defined.

(** A mask name made of ASCII letters and digits is never answered with
    "Invalid mask name". *)
Theorem ascii_alnum_mask_passes_validation (P : platform) (req : request)
    (w : world) (mask : str) :
  md_get (u "mask") (form req) = Some mask →
  mask ≠ [] → Forall (λ c, ascii_alnum c = true) mask →
  json_field (u "error") (serve P ProcessInline req w).1
  ≠ Some (u "Invalid mask name").
Proof.
  intros Hmask Hne Hal.
  apply (serve_wp P ProcessInline req w
           (λ resp w', json_field (u "error") resp
                       ≠ Some (u "Invalid mask name"))).
  cbn [dispatch_request]. unfold process_inline.
  rewrite Hmask. change (default (u "cat") (Some mask)) with mask.
  rewrite (isalnum_ascii_word P mask) by done. cbn [negb].
  wp_walk.
  all: finalized; by vm_compute.
Qed.

(** An instance: the mask ["Fox2"]. *)
Lemma ascii_alnum_mask_passes_validation_witness :
  json_field (u "error")
    (serve (demo [] []) ProcessInline (demo_request (Some (u "Fox2")))
       demo_world).1
  ≠ Some (u "Invalid mask name").
Proof.
  apply (ascii_alnum_mask_passes_validation (demo [] [])
           (demo_request (Some (u "Fox2"))) demo_world (u "Fox2") eq_refl).
  - done.
  - apply (bool_decide_unpack _). by vm_compute.
Defined.

(** ** The stages of /process-inline *)

Section InlineMore.
Context (P : platform) (Hkeep : keeps_files P).

(** The summary of a surfaced failure. *)
Lemma inline_failure_summary req w :
  wp (process_inline P req) (mkWorld (fs w) (draws w) [])
    (λ r w', ∀ st args c,
       Spawn st args c ∈ trace w' →
       returncode c ≠ 0%Z → st ≠ Finalizing →
       is_Some (decode (stderr c)) →
       json_field (u "error") (finalize P req r) = Some (failure_summary st)).
Proof.
  unfold process_inline. wp_walk.
  all: intros ? ? ? Hin Hrc Hst [? Hdec].
  all: cases_in_trace; by finalized.
Qed.

(** The path on which all three programs succeed. *)
Lemma inline_success req w :
  wp (process_inline P req) (mkWorld (fs w) (draws w) [])
    (λ r w', ∀ args c,
       Spawn Finalizing args c ∈ trace w' →
       returncode c = 0%Z →
       (∀ p, MkTemp p ∈ trace w' → fs w' !! p = None)
       ∧ ∃ b, last (trace w') = Some (ReadFile (List.last args []) b)
              ∧ r = Ok (mkResponse 200
                          [(u "Content-Type", u "video/mp4");
                           (u "Content-Disposition",
                            u "inline; filename=processed.mp4");
                           (ACAO, ORIGIN);
                           (ACAM, u "POST, GET, OPTIONS");
                           (ACAH, u "Content-Type")]
                          (Raw b))).
Proof.
  unfold process_inline. wp_walk.
  all: intros ? ? Hin Hrc.
  all: cases_in_trace.
  split.
  - intros q Hq; cases_in_trace; solve_absent.
  - eexists. split; reflexivity.
Qed.

End InlineMore.

(** How the stages are chained. *)
Lemma inline_chain (P : platform) req w :
  wp (process_inline P req) (mkWorld (fs w) (draws w) [])
    (λ r w',
       (∀ st args c,
          Spawn st args c ∈ trace w' →
          MkTemp (List.last args []) ∈ trace w'
          ∧ head args = Some (match st with
                              | Overlaying => u "python"
                              | _ => u "ffmpeg"
                              end))
       ∧ (∀ args c,
            Spawn Staging args c ∈ trace w' →
            ∃ input, args !! 3%nat = Some input
                     ∧ head (trace w') = Some (MkTemp input))
       ∧ (∀ args c args' c',
            Spawn Staging args c ∈ trace w' →
            Spawn Overlaying args' c' ∈ trace w' →
            returncode c = 0%Z
            ∧ args' !! 1%nat
              = Some (fspath (BASE_DIR P // u "overlay_processor.py"))
            ∧ args' !! 2%nat = Some (List.last args []))
       ∧ (∀ args c args' c',
            Spawn Overlaying args c ∈ trace w' →
            Spawn Finalizing args' c' ∈ trace w' →
            returncode c = 0%Z
            ∧ args' !! 3%nat = Some (List.last args []))).
Proof.
  unfold process_inline. wp_walk.
  all: split_and!.
  all: intros; cases_in_trace; try done.
  all: try (split; [in_trace|done]).
  all: try (eexists; split; reflexivity).
Qed.

(** A 200 means that all three stages ran. *)
Lemma inline_ok (P : platform) req w :
  wp (process_inline P req) (mkWorld (fs w) (draws w) [])
    (λ r w',
       status (finalize P req r) = 200%nat →
       spawned (trace w') = [Staging; Overlaying; Finalizing]
       ∧ (∀ st args c, Spawn st args c ∈ trace w' → st ≠ Finalizing →
                       returncode c = 0%Z)
       ∧ ∃ p b, last (trace w') = Some (ReadFile p b)
                ∧ body (finalize P req r) = Raw b).
Proof.
  unfold process_inline. wp_walk.
  all: finalized; intros Hst; try done.
  all: split_and!; [done| |by eexists _, _].
  all: intros ? ? ? Hin Hne; by cases_in_trace.
Qed.

(** When the staging transcode or the overlay program fails with a
    diagnostic that is UTF-8, the [error] field of the JSON body names what
    failed: "Failed to convert WebM" for the staging transcode, "Processing
    failed" for the overlay program, on /process-inline and on /upload. *)
Theorem failure_summary_names_the_stage (P : platform) (e : endpoint)
    (req : request) (w : world) :
  keeps_files P →
  ∀ st args c,
    Spawn st args c ∈ trace (serve P e req w).2 →
    returncode c ≠ 0%Z →
    st ≠ Finalizing →
    is_Some (decode (stderr c)) →
    json_field (u "error") (serve P e req w).1 = Some (failure_summary st).
Proof.
  intros Hkeep.
  apply (serve_wp P e req w
           (λ resp w', ∀ st args c,
              Spawn st args c ∈ trace w' →
              returncode c ≠ 0%Z → st ≠ Finalizing →
              is_Some (decode (stderr c)) →
              json_field (u "error") resp = Some (failure_summary st))).
  destruct (quiet e) eqn:Hq.
  { eapply wp_mono; [by apply quiet_run|]. intros r w' (Htr & _ & _).
    rewrite Htr. intros ? ? ? Hin. by apply elem_of_nil in Hin. }
  destruct e; try done; [|by apply inline_failure_summary].
  eapply wp_mono; [apply upload_spec|]. intros r w' H. cbv zeta in H.
  destruct (md_get _ _).
  - destruct H as (c & after & _ & -> & _ & ->).
    intros ? ? ? Hin Hrc _ [t Hdec]. cases_in_trace.
    rewrite (proj2 (Z.eqb_neq _ _)) by done. rewrite Hdec. by finalized.
  - destruct H as (_ & -> & _). intros ? ? ? Hin. by apply elem_of_nil in Hin.
Qed.

(** An instance: a failing staging transcode. *)
Lemma failure_summary_names_the_stage_witness :
  json_field (u "error")
    (serve (demo [Staging] [x62]) ProcessInline (demo_request None)
       demo_world).1
  = Some (u "Failed to convert WebM").
Proof.
  eapply (failure_summary_names_the_stage (demo [Staging] [x62])
            ProcessInline (demo_request None) demo_world
            (demo_keeps_files _ _) Staging).
  - eval_trace. in_trace.
  - done.
  - done.
  - by eexists.
Defined.

(** When the final transcode succeeds, the response is 200 with exactly
    the five headers of lines 163-168 (the [after_request] functions add
    nothing), its body is what the handler read from the final transcode's
    output, as its last action on the environment, and no temporary file of
    the request is left. *)
Theorem inline_success_response (P : platform) (req : request) (w : world) :
  keeps_files P →
  ∀ args c,
    Spawn Finalizing args c ∈ trace (serve P ProcessInline req w).2 →
    returncode c = 0%Z →
    status (serve P ProcessInline req w).1 = 200%nat
    ∧ headers (serve P ProcessInline req w).1
      = [(u "Content-Type", u "video/mp4");
         (u "Content-Disposition", u "inline; filename=processed.mp4");
         (ACAO, ORIGIN);
         (ACAM, u "POST, GET, OPTIONS");
         (ACAH, u "Content-Type")]
    ∧ (∃ b, last (trace (serve P ProcessInline req w).2)
            = Some (ReadFile (List.last args []) b)
            ∧ body (serve P ProcessInline req w).1 = Raw b)
    ∧ ∀ p, MkTemp p ∈ trace (serve P ProcessInline req w).2 →
           fs (serve P ProcessInline req w).2 !! p = None.
Proof.
  intros Hkeep.
  apply (serve_wp P ProcessInline req w
           (λ resp w', ∀ args c,
              Spawn Finalizing args c ∈ trace w' → returncode c = 0%Z →
              status resp = 200%nat
              ∧ headers resp
                = [(u "Content-Type", u "video/mp4");
                   (u "Content-Disposition",
                    u "inline; filename=processed.mp4");
                   (ACAO, ORIGIN);
                   (ACAM, u "POST, GET, OPTIONS");
                   (ACAH, u "Content-Type")]
              ∧ (∃ b, last (trace w')
                      = Some (ReadFile (List.last args []) b)
                      ∧ body resp = Raw b)
              ∧ ∀ p, MkTemp p ∈ trace w' → fs w' !! p = None)).
  eapply wp_mono; [by apply inline_success|].
  intros r w' H args c Hin Hrc.
  destruct (H args c Hin Hrc) as (Hclean & b & Hlast & ->).
  rewrite finalize_view; [|by right|done].
  cbn [response_of]. unfold add_cors_headers. cbn [headers].
  replace (hdr_contains ACAO _) with true by (by vm_compute).
  cbn [negb]. split_and!; [done|done| |done].
  by exists b.
Qed.

(** An instance: all three programs succeed, and the body is the upload as
    the scripted programs copied it. *)
Lemma inline_success_response_witness :
  let rw := serve (demo [] []) ProcessInline (demo_request None) demo_world in
  status rw.1 = 200%nat
  ∧ body rw.1 = Raw [x1a; x45; xdf; xa3]
  ∧ ∀ p, MkTemp p ∈ trace rw.2 → fs rw.2 !! p = None.
Proof.
  intros rw. subst rw.
  edestruct (inline_success_response (demo [] []) (demo_request None)
               demo_world (demo_keeps_files _ _))
    as (Hst & _ & _ & Hclean).
  - eval_trace. in_trace.
  - done.
  - split_and!; [exact Hst|by vm_compute|exact Hclean].
Defined.

(** The stages of /process-inline are chained through the temporary files:
    every program writes to a temporary file of the request; the staging
    transcode reads the first of them, where the upload was saved; the
    overlay program runs [overlay_processor.py] of the application's
    directory on the staging transcode's output, after that transcode
    succeeded; the final transcode reads the overlay program's output, after
    that program succeeded. *)
Theorem inline_stages_chained (P : platform) (req : request) (w : world) :
  (∀ st args c,
     Spawn st args c ∈ trace (serve P ProcessInline req w).2 →
     MkTemp (List.last args []) ∈ trace (serve P ProcessInline req w).2
     ∧ head args = Some (match st with
                         | Overlaying => u "python"
                         | _ => u "ffmpeg"
                         end))
  ∧ (∀ args c,
       Spawn Staging args c ∈ trace (serve P ProcessInline req w).2 →
       ∃ input, args !! 3%nat = Some input
                ∧ head (trace (serve P ProcessInline req w).2)
                  = Some (MkTemp input))
  ∧ (∀ args c args' c',
       Spawn Staging args c ∈ trace (serve P ProcessInline req w).2 →
       Spawn Overlaying args' c' ∈ trace (serve P ProcessInline req w).2 →
       returncode c = 0%Z
       ∧ args' !! 1%nat
         = Some (fspath (BASE_DIR P // u "overlay_processor.py"))
       ∧ args' !! 2%nat = Some (List.last args []))
  ∧ (∀ args c args' c',
       Spawn Overlaying args c ∈ trace (serve P ProcessInline req w).2 →
       Spawn Finalizing args' c' ∈ trace (serve P ProcessInline req w).2 →
       returncode c = 0%Z
       ∧ args' !! 3%nat = Some (List.last args [])).
Proof.
  apply (serve_wp P ProcessInline req w
           (λ _ w',
              (∀ st args c,
                 Spawn st args c ∈ trace w' →
                 MkTemp (List.last args []) ∈ trace w'
                 ∧ head args = Some (match st with
                                     | Overlaying => u "python"
                                     | _ => u "ffmpeg"
                                     end))
              ∧ (∀ args c,
                   Spawn Staging args c ∈ trace w' →
                   ∃ input, args !! 3%nat = Some input
                            ∧ head (trace w') = Some (MkTemp input))
              ∧ (∀ args c args' c',
                   Spawn Staging args c ∈ trace w' →
                   Spawn Overlaying args' c' ∈ trace w' →
                   returncode c = 0%Z
                   ∧ args' !! 1%nat
                     = Some (fspath (BASE_DIR P // u "overlay_processor.py"))
                   ∧ args' !! 2%nat = Some (List.last args []))
              ∧ (∀ args c args' c',
                   Spawn Overlaying args c ∈ trace w' →
                   Spawn Finalizing args' c' ∈ trace w' →
                   returncode c = 0%Z
                   ∧ args' !! 3%nat = Some (List.last args [])))).
  apply inline_chain.
Qed.

(** A 200 from /process-inline means that all three programs were run, in
    order, that the staging transcode and the overlay program succeeded,
    and that the body is what the handler read last. *)
Theorem inline_ok_ran_all_stages (P : platform) (req : request) (w : world) :
  status (serve P ProcessInline req w).1 = 200%nat →
  spawned (trace (serve P ProcessInline req w).2)
  = [Staging; Overlaying; Finalizing]
  ∧ (∀ st args c,
       Spawn st args c ∈ trace (serve P ProcessInline req w).2 →
       st ≠ Finalizing → returncode c = 0%Z)
  ∧ ∃ p b, last (trace (serve P ProcessInline req w).2) = Some (ReadFile p b)
           ∧ body (serve P ProcessInline req w).1 = Raw b.
Proof.
  apply (serve_wp P ProcessInline req w
           (λ resp w', status resp = 200%nat →
              spawned (trace w') = [Staging; Overlaying; Finalizing]
              ∧ (∀ st args c, Spawn st args c ∈ trace w' → st ≠ Finalizing →
                              returncode c = 0%Z)
              ∧ ∃ p b, last (trace w') = Some (ReadFile p b)
                       ∧ body resp = Raw b)).
  apply inline_ok.
Qed.

(** An instance: the 200 of the fallback. *)
Lemma inline_ok_ran_all_stages_witness :
  spawned (trace (serve (demo [Finalizing] [x62]) ProcessInline
                    (demo_request None) demo_world).2)
  = [Staging; Overlaying; Finalizing].
Proof.
  destruct (inline_ok_ran_all_stages (demo [Finalizing] [x62])
              (demo_request None) demo_world) as (H & _).
  - by vm_compute.
  - exact H.
Defined.

(** ** The files a request touches *)

Lemma framed P args files c after k :
  writes_only_output P →
  execve P args files = (c, after) →
  k ≠ List.last args [] → after !! k = files !! k.
Proof. intros Hw E Hk. apply (Hw args files) in Hk. by rewrite E in Hk. Qed.

(** The scripted programs write to their output path only. *)
Lemma demo_writes_only_output failing diag :
  writes_only_output (demo failing diag).
Proof.
  intros args files p Hp. cbn. unfold scripted.
  case_bool_decide; cbn; [done|]. by rewrite lookup_insert_ne.
Qed.

(** Trace a lookup back through the inserts, deletes and program runs that
    do not concern its key. *)
Ltac rewind :=
  repeat first
    [ rewrite lookup_insert_ne by congruence
    | rewrite lookup_delete_ne by congruence
    | match goal with
      | Hw : writes_only_output _, E : execve _ _ _ = (_, ?after)
        |- context [?after !! ?k] =>
          rewrite (framed _ _ _ _ _ k Hw E) by (cbn [List.last]; congruence)
      end ].

Ltac rewind_in H :=
  repeat first
    [ rewrite lookup_insert_ne in H by congruence
    | rewrite lookup_delete_ne in H by congruence
    | match type of H with
      | context [?after !! ?k] =>
          match goal with
          | Hw : writes_only_output _, E : execve _ _ _ = (_, after) |- _ =>
              rewrite (framed _ _ _ _ _ k Hw E) in H
                by (cbn [List.last]; congruence)
          end
      end ].

Section InlineFiles.
Context (P : platform) (Hkeep : keeps_files P) (Hframe : writes_only_output P).

(** The request changes no file but the temporary files it created, and
    those did not exist before it. *)
Lemma inline_footprint req w :
  wp (process_inline P req) (mkWorld (fs w) (draws w) [])
    (λ r w',
       (∀ p, MkTemp p ∈ trace w' → fs w !! p = None)
       ∧ NoDup (temp_files (trace w'))
       ∧ (∀ k, MkTemp k ∉ trace w' → fs w' !! k = fs w !! k)).
Proof.
  unfold process_inline. wp_walk.
  all: repeat match goal with
         | H : _ !! _ = None |- _ => progress rewind_in H
         end.
  all: split_and!.
  all: try (intros q Hq; by cases_in_trace).
  all: try (cbn;
            repeat (apply NoDup_cons; split;
                    [rewrite ?not_elem_of_cons; repeat split;
                     first [congruence | apply not_elem_of_nil]|]);
            apply NoDup_nil_2).
  all: intros k Hk; cbn [fs]; rewrite ?not_elem_of_cons in Hk;
    destruct_and?; rewind; done.
Qed.

(** After a failed final transcode, the three other temporary files are
    deleted all the same. *)
Lemma inline_fallback_cleanup req w :
  wp (process_inline P req) (mkWorld (fs w) (draws w) [])
    (λ r w', ∀ args c,
       Spawn Finalizing args c ∈ trace w' →
       returncode c ≠ 0%Z →
       is_Some (decode (stderr c)) →
       ∀ p, MkTemp p ∈ trace w' → p ≠ List.last args [] → fs w' !! p = None).
Proof.
  unfold process_inline. wp_walk.
  all: intros ? ? Hin Hrc [? Hdec].
  all: cases_in_trace.
  all: intros q Hq Hne; cases_in_trace; solve_absent.
Qed.

End InlineFiles.

(** /process-inline touches nothing but its own temporary files, when the
    programs write to their output path only: the temporary files are new
    names, distinct from each other, and every other path has after the
    request the content it had before.  In particular the mask files are
    never changed. *)
Theorem inline_touches_only_its_temp_files (P : platform) (req : request)
    (w : world) :
  keeps_files P →
  writes_only_output P →
  (∀ p, MkTemp p ∈ trace (serve P ProcessInline req w).2 → fs w !! p = None)
  ∧ NoDup (temp_files (trace (serve P ProcessInline req w).2))
  ∧ (∀ k, MkTemp k ∉ trace (serve P ProcessInline req w).2 →
          fs (serve P ProcessInline req w).2 !! k = fs w !! k).
Proof.
  intros Hkeep Hframe.
  apply (serve_wp P ProcessInline req w
           (λ _ w',
              (∀ p, MkTemp p ∈ trace w' → fs w !! p = None)
              ∧ NoDup (temp_files (trace w'))
              ∧ (∀ k, MkTemp k ∉ trace w' → fs w' !! k = fs w !! k))).
  by apply inline_footprint.
Qed.

(** An instance: the four temporary files of a successful request, and the
    default mask file after it. *)
Lemma inline_touches_only_its_temp_files_witness :
  let rw := serve (demo [] []) ProcessInline (demo_request None) demo_world in
  temp_files (trace rw.2)
  = [u "/tmp/tmp00000000.webm"; u "/tmp/tmp00000001.mp4";
     u "/tmp/tmp00000002.mp4"; u "/tmp/tmp00000003.mp4"]
  ∧ fs rw.2 !! u "/srv/app/masks/cat.png" = Some [x89; x50].
Proof.
  intros rw. subst rw.
  destruct (inline_touches_only_its_temp_files (demo [] []) (demo_request None)
              demo_world (demo_keeps_files _ _) (demo_writes_only_output _ _))
    as (_ & _ & Hframe).
  split; [by vm_compute|].
  rewrite Hframe; [by vm_compute|].
  eval_trace. intros Hin. by cases_in_trace.
Defined.

(** After a failed final transcode (with a diagnostic that is UTF-8) the
    cleanup still deletes the three other temporary files: the only one
    left is the output name of the failed transcode. *)
Theorem fallback_cleans_the_other_temp_files (P : platform) (req : request)
    (w : world) :
  keeps_files P →
  ∀ args c,
    Spawn Finalizing args c ∈ trace (serve P ProcessInline req w).2 →
    returncode c ≠ 0%Z →
    is_Some (decode (stderr c)) →
    ∀ p, MkTemp p ∈ trace (serve P ProcessInline req w).2 →
         p ≠ List.last args [] →
         fs (serve P ProcessInline req w).2 !! p = None.
Proof.
  intros Hkeep.
  apply (serve_wp P ProcessInline req w
           (λ _ w', ∀ args c,
              Spawn Finalizing args c ∈ trace w' →
              returncode c ≠ 0%Z →
              is_Some (decode (stderr c)) →
              ∀ p, MkTemp p ∈ trace w' → p ≠ List.last args [] →
                   fs w' !! p = None)).
  by apply inline_fallback_cleanup.
Qed.

(** An instance: the overlay output after a failed final transcode. *)
Lemma fallback_cleans_the_other_temp_files_witness :
  fs (serve (demo [Finalizing] [x62]) ProcessInline (demo_request None)
        demo_world).2 !! u "/tmp/tmp00000002.mp4" = None.
Proof.
  eapply (fallback_cleans_the_other_temp_files (demo [Finalizing] [x62])
            (demo_request None) demo_world (demo_keeps_files _ _)).
  - eval_trace. in_trace.
  - done.
  - by eexists.
  - eval_trace. in_trace.
  - by vm_compute.
Defined.

(** ** The persisted route, continued *)

Lemma fspath_nonempty r (t : list str) :
  t ≠ [] → fspath (mkPath r t) = r ++ join [chr_slash] t.
Proof. intros Ht. unfold fspath. simpl. destruct r, t; done. Qed.

(** The path string of a grandchild: a prefix that depends on the
    directory only, then the two names. *)
Lemma fspath_grandchild r (t : list str) :
  ∃ pre, ∀ a b : str,
    fspath (mkPath r ((t ++ [a]) ++ [b])) = pre ++ a ++ [chr_slash] ++ b.
Proof.
  destruct t as [|x t].
  - exists r. intros a b. by rewrite fspath_nonempty.
  - exists (r ++ join [chr_slash] (x :: t) ++ [chr_slash]). intros a b.
    rewrite fspath_nonempty by (by destruct t).
    rewrite !join_snoc by (by destruct t). by rewrite <- !app_assoc.
Qed.

(** The stored upload and the output of its overlay run are different
    paths. *)
Lemma upload_paths_differ (P : platform) n :
  fspath (UPLOAD_DIR P // (uuid_str n ++ u ".webm"))
  ≠ fspath (PROCESSED_DIR P // (uuid_str n ++ u "_mask.mp4")).
Proof.
  destruct (uuid_child_name (UPLOAD_DIR P) n (u ".webm")) as [-> _].
  { apply (bool_decide_unpack _). by vm_compute. }
  destruct (uuid_child_name (PROCESSED_DIR P) n (u "_mask.mp4")) as [-> _].
  { apply (bool_decide_unpack _). by vm_compute. }
  destruct (fspath_grandchild (root (BASE_DIR P)) (tail (BASE_DIR P)))
    as [pre Hpre].
  change (tail (UPLOAD_DIR P)) with (tail (BASE_DIR P) ++ [u "uploads"]).
  change (tail (PROCESSED_DIR P)) with (tail (BASE_DIR P) ++ [u "processed"]).
  change (root (UPLOAD_DIR P)) with (root (BASE_DIR P)).
  change (root (PROCESSED_DIR P)) with (root (BASE_DIR P)).
  rewrite !Hpre. generalize (uuid_str n). intros s H%app_inv_head.
  by vm_compute in H.
Qed.

(** The output path of the overlay run is the last argument. *)
Lemma upload_cmd_last (P : platform) (id : str) :
  List.last (upload_cmd P id) []
  = fspath (PROCESSED_DIR P // (id ++ u "_mask.mp4")).
Proof. reflexivity. Qed.

(** /upload keeps what it stored: when the overlay program writes to its
    output path only, the upload is in the upload directory under its UUID
    name after the request, whether the program succeeded or not, and no
    path other than that one and the program's output path has changed. *)
Theorem upload_keeps_the_upload (P : platform) (req : request) (w : world)
    (video : bytes) :
  writes_only_output P →
  md_get (u "video") (files req) = Some video →
  let id := uuid_str (uuid4_int P (draws w)) in
  let input_path := UPLOAD_DIR P // (id ++ u ".webm") in
  let output_path := PROCESSED_DIR P // (id ++ u "_mask.mp4") in
  fs (serve P Upload req w).2 !! fspath input_path = Some video
  ∧ ∀ k, k ≠ fspath input_path → k ≠ fspath output_path →
         fs (serve P Upload req w).2 !! k = fs w !! k.
Proof.
  intros Hframe Hv id input_path output_path.
  pose proof (upload_paths_differ P (uuid4_int P (draws w))) as Hdiff.
  apply (serve_wp P Upload req w
           (λ _ w', fs w' !! fspath input_path = Some video
              ∧ ∀ k, k ≠ fspath input_path → k ≠ fspath output_path →
                     fs w' !! k = fs w !! k)).
  eapply wp_mono; [apply upload_spec|]. intros r w' H. cbv zeta in H.
  rewrite Hv in H. destruct H as (c & after & Hrun & _ & -> & _).
  subst output_path input_path id.
  generalize dependent (uuid_str (uuid4_int P (draws w))). intros id Hdiff Hrun.
  split.
  - rewrite (framed _ _ _ _ _ _ Hframe Hrun)
      by (by rewrite upload_cmd_last).
    apply lookup_insert_eq.
  - intros k Hin Hout.
    rewrite (framed _ _ _ _ _ _ Hframe Hrun)
      by (by rewrite upload_cmd_last).
    by rewrite lookup_insert_ne.
Qed.

(** An instance: the stored upload after a failed overlay run. *)
Lemma upload_keeps_the_upload_witness :
  fs (serve (demo [Overlaying] [x62]) Upload (demo_request None) demo_world).2
  !! u "/srv/app/uploads/01234567-89ab-cdef-0123-456789abcdef.webm"
  = Some [x1a; x45; xdf; xa3].
Proof.
  destruct (upload_keeps_the_upload (demo [Overlaying] [x62])
              (demo_request None) demo_world [x1a; x45; xdf; xa3]
              (demo_writes_only_output _ _) eq_refl) as [H _].
  assert (u "/srv/app/uploads/01234567-89ab-cdef-0123-456789abcdef.webm"
          = fspath (UPLOAD_DIR (demo [Overlaying] [x62])
                    // (uuid_str (uuid4_int (demo [Overlaying] [x62])
                                    (draws demo_world)) ++ u ".webm")))
    as -> by (by vm_compute).
  exact H.
Defined.









(** ** Cross-origin headers, continued *)



(** After [add_cors_headers] the header is there. *)
Lemma add_cors_headers_contains r :
  hdr_contains ACAO (headers (add_cors_headers r)) = true.
Proof.
  unfold add_cors_headers.
  destruct (hdr_contains ACAO (headers r)) eqn:E; cbn [negb]; [done|].
  apply not_false_is_true. rewrite hdr_contains_getlist.
  cbn [headers set_header]. by rewrite !hdr_getlist_set.
Qed.



Section CorsMore.
Context (P : platform).


End CorsMore.



(** [add_cors_headers] changes the headers only, leaves a response alone
    that has an [Access-Control-Allow-Origin] header (whatever its value),
    and applying it twice is applying it once. *)
Theorem add_cors_headers_idempotent (resp : response) :
  add_cors_headers (add_cors_headers resp) = add_cors_headers resp
  ∧ status (add_cors_headers resp) = status resp
  ∧ body (add_cors_headers resp) = body resp
  ∧ (hdr_contains ACAO (headers resp) = true → add_cors_headers resp = resp).
Proof.
  split_and!.
  - unfold add_cors_headers at 1.
    by rewrite add_cors_headers_contains.
  - unfold add_cors_headers. by destruct (hdr_contains _ _).
  - unfold add_cors_headers. by destruct (hdr_contains _ _).
  - intros H. unfold add_cors_headers. by rewrite H.
Qed.

(** ** The other views *)

(** The views other than /upload and /process-inline create no file, run
    no program and leave the file system as it was. *)
Theorem quiet_views_leave_the_world (P : platform) (e : endpoint)
    (req : request) (w : world) :
  quiet e = true →
  fs (serve P e req w).2 = fs w ∧ trace (serve P e req w).2 = [].
Proof.
  intros Hq.
  apply (serve_wp P e req w (λ _ w', fs w' = fs w ∧ trace w' = [])).
  eapply wp_mono; [by apply quiet_run|]. by intros r w' (? & ? & _).
Qed.

(** An instance: a GET under /processed. *)
Lemma quiet_views_leave_the_world_witness :
  trace (serve (demo [] []) (Processed (u "clip.mp4"))
           (mkRequest (u "GET") [] [] []) demo_world).2 = [].
Proof.
  destruct (quiet_views_leave_the_world (demo [] []) (Processed (u "clip.mp4"))
              (mkRequest (u "GET") [] [] []) demo_world eq_refl) as [_ H].
  exact H.
Defined.


(** The two [OPTIONS] responses.  The explicit view of ["/"],
    ["/process-inline"] and ["/upload"] answers 200 with an empty body, the
    [Allow] header of the URL, and the three cross-origin headers in the
    order the view sets them; the [after_request] functions add nothing.
    Flask's automatic response, for a URL without such a view (as
    /processed/...), gets the three headers from [add_cors_headers], in its
    order.  Neither touches the world. *)
Theorem options_responses (P : platform) (allow : str) (req : request)
    (w : world) :
  serve P (HandleOptions allow) req w
  = (mkResponse 200
       [(u "Content-Type", u "text/html; charset=utf-8");
        (u "Allow", allow);
        (ACAO, ORIGIN);
        (ACAM, u "POST, GET, OPTIONS");
        (ACAH, u "Content-Type")]
       (Raw []),
     mkWorld (fs w) (draws w) [])
  ∧ serve P (AutomaticOptions allow) req w
    = (mkResponse 200
         [(u "Content-Type", u "text/html; charset=utf-8");
          (u "Allow", allow);
          (ACAO, ORIGIN);
          (ACAH, u "Content-Type");
          (ACAM, u "POST, GET, OPTIONS")]
         (Raw []),
       mkWorld (fs w) (draws w) []).
Proof.
  split; unfold serve; cbn [dispatch_request].
  - unfold handle_options. cbn [mret M_ret]. f_equal.
  - cbn [mret M_ret]. f_equal.
Qed.

(** GET / answers 200 with the JSON status object. *)
Example index_response (P : platform) (req : request) (w : world) :
  serve P Index req w
  = (mkResponse 200
       [(u "Content-Type", u "application/json");
        (ACAO, ORIGIN);
        (ACAH, u "Content-Type");
        (ACAM, u "POST, GET, OPTIONS")]
       (Json [(u "status", u "online");
              (u "message", u "Face Filter API is running")]),
     mkWorld (fs w) (draws w) []).
Proof. reflexivity. Qed.

(** ** No traversal out of the processed directory *)

Lemma split_on_no_sep sep (s : str) : Forall (λ c, sep ∉ c) (split_on sep s).
Proof.
  induction s as [|a s IH]; simpl.
  - constructor; [apply not_elem_of_nil|constructor].
  - destruct (N.eqb_spec a sep) as [->|Hne].
    + constructor; [apply not_elem_of_nil|exact IH].
    + destruct (split_on sep s) as [|w ws].
      * constructor; [|constructor].
        rewrite not_elem_of_cons. split; [congruence|apply not_elem_of_nil].
      * apply Forall_cons in IH as [Hw Hws]. constructor; [|exact Hws].
        rewrite not_elem_of_cons. split; [congruence|exact Hw].
Qed.

(** Lists of one repeated element. *)
Lemma replicate_snoc {A} k (x : A) : replicate k x ++ [x] = x :: replicate k x.
Proof. induction k as [|k IH]; simpl; [done|]. by rewrite IH. Qed.

Lemma rev_replicate {A} k (x : A) : rev (replicate k x) = replicate k x.
Proof.
  induction k as [|k IH]; simpl; [done|]. by rewrite IH, replicate_snoc.
Qed.

(** [normpath] keeps [".."] components only at the front of a relative
    path: the stack of components is, from the top, plain names and then
    [".."]s, and so is what comes out. *)
Lemma norm_comps_shape (comps : list str) :
  ∀ plain k,
    Forall plain_component plain →
    Forall (λ c, chr_slash ∉ c) comps →
    ∃ plain' k',
      norm_comps false (plain ++ replicate k [chr_dot; chr_dot]) comps
      = replicate k' [chr_dot; chr_dot] ++ plain'
      ∧ Forall plain_component plain'.
Proof.
  induction comps as [|c cs IH]; intros plain k Hplain Hcomps.
  - simpl. exists (rev plain), k. split.
    + by rewrite rev_app_distr, rev_replicate.
    + rewrite Forall_forall in Hplain |- *. intros x Hx.
      apply Hplain. by apply list_elem_of_In, in_rev, list_elem_of_In.
  - apply Forall_cons in Hcomps as [Hc Hcs]. simpl.
    case_bool_decide as Hskip; [by apply IH|].
    case_bool_decide as Hdd.
    + destruct plain as [|p plain]; simpl.
      * destruct k as [|k]; simpl.
        -- subst c. by apply (IH [] 1%nat).
        -- subst c. by apply (IH [] (S (S k))).
      * apply Forall_cons in Hplain as [Hp Hplain].
        rewrite bool_decide_eq_false_2 by (by destruct Hp as (_ & _ & ? & _)).
        by apply IH.
    + apply (IH (c :: plain) k); [|done].
      constructor; [|done]. split_and!; [| |done|done]; intros ->; apply Hskip;
        [by left|by right].
Qed.

(** A path that [safe_join] accepts is the directory, a slash, and a
    relative path without [".."]: a dot, or plain names joined by slashes. *)
Lemma safe_join_inside directory fname path :
  safe_join directory fname = Some path →
  ∃ rel, path = directory ++ [chr_slash] ++ rel
         ∧ (rel = [chr_dot]
            ∨ ∃ comps, rel = join [chr_slash] comps
                       ∧ Forall plain_component comps).
Proof.
  unfold safe_join. destruct fname as [|x s].
  { intros [= <-]. exists []. split; [done|]. right. exists [].
    split; [done|constructor]. }
  destruct (_ || _ || _) eqn:Hor; [done|]. intros [= <-].
  exists (normpath (x :: s)). split; [done|].
  apply orb_false_elim in Hor as [Hor Hup].
  apply orb_false_elim in Hor as [Habs Hdd].
  apply bool_decide_eq_false in Hdd.
  unfold startswith in Habs, Hup.
  apply bool_decide_eq_false in Habs. apply bool_decide_eq_false in Hup.
  revert Habs Hdd Hup. unfold normpath.
  destruct (N.eqb_spec x chr_slash) as [->|Hx].
  { intros Habs. exfalso. apply Habs.
    by destruct (count_leading chr_slash (chr_slash :: s))
      as [|[|[|n]]] eqn:E. }
  rewrite count_leading_other by done. cbn [app bool_decide negb].
  rewrite (bool_decide_eq_true_2 ([] = [])) by done. cbn [negb].
  destruct (norm_comps_shape (split_on chr_slash (x :: s)) [] 0%nat)
    as (plain & k & Hshape & Hplain); [constructor|apply split_on_no_sep|].
  cbn [app replicate] in Hshape. unfold str in *. rewrite Hshape.
  destruct k as [|k]; cbn [replicate app].
  - intros _ _ _. destruct (join [chr_slash] plain) eqn:E; [by left|].
    right. exists plain. by rewrite E.
  - intros _ Hdd Hup. exfalso.
    destruct (replicate k [chr_dot; chr_dot] ++ plain) as [|y l] eqn:E.
    + by apply Hdd.
    + by apply Hup.
Qed.

(** GET /processed/<name> never serves a file from outside the processed
    directory: when the answer is 200, the body is the content of a file
    whose path is the directory's, a slash, and a relative path without
    [".."]. *)
Theorem processed_stays_inside (P : platform) (fname : str) (req : request)
    (w : world) :
  status (serve P (Processed fname) req w).1 = 200%nat →
  ∃ rel b,
    fs w !! (fspath (PROCESSED_DIR P) ++ [chr_slash] ++ rel) = Some b
    ∧ body (serve P (Processed fname) req w).1 = Raw b
    ∧ (rel = [chr_dot]
       ∨ ∃ comps, rel = join [chr_slash] comps
                  ∧ Forall plain_component comps).
Proof.
  unfold serve. cbn [dispatch_request]. unfold processed, send_from_directory.
  destruct (safe_join _ _) as [path|] eqn:Hjoin; cbn [fst snd fs];
    [|unfold raise; cbn [fst snd]; by rewrite finalize_status].
  destruct (safe_join_inside _ _ _ Hjoin) as (rel & -> & Hrel).
  destruct (fs w !! _) as [b|] eqn:Hb; cbn [fst snd];
    rewrite finalize_status, ?finalize_body; [|done].
  intros _. by exists rel, b.
Qed.

(** An instance: a name with a [".."] that stays inside the directory. *)
Lemma processed_stays_inside_witness :
  let w := mkWorld (<[u "/srv/app/processed/a/clip.mp4" := [x00; x01]]> demo_fs)
             0 [] in
  body (serve (demo [] []) (Processed (u "a/b/../clip.mp4"))
          (mkRequest (u "GET") [] [] []) w).1
  = Raw [x00; x01].
Proof.
  intros w.
  destruct (processed_stays_inside (demo [] []) (u "a/b/../clip.mp4")
              (mkRequest (u "GET") [] [] []) w) as (rel & b & _ & Hb & _).
  - by vm_compute.
  - rewrite Hb. by vm_compute.
Defined.

(** Names that point out of the processed directory are answered with 404,
    although the files exist. *)
Example processed_refuses_traversal :
  let w := mkWorld (<[u "/srv/app/app.py" := [x23]]>
                      (<[u "/etc/passwd" := [x72]]> demo_fs)) 0 [] in
  let get fname :=
    status (serve (demo [] []) (Processed fname)
              (mkRequest (u "GET") [] [] []) w).1 in
  get (u "../app.py") = 404%nat
  ∧ get (u "a/../../app.py") = 404%nat
  ∧ get (u "/etc/passwd") = 404%nat
  ∧ get (u "..") = 404%nat.
Proof. by vm_compute. Qed.
